(** * test::EventLoop — the event loop of the async unit-test framework

    A model of [class EventLoop] of asyncTest-private.hpp and the properties
    of its scheduler, its done() markers and its termination states.

    Conventions of the model.
    - [int] and [long long] values are integers of [Z]; signed overflow is
      undefined behaviour in C++ and is reported as [Fault SignedOverflow].
    - The wall clock and [rand()] are oracles: the k-th reading of
      [getTimeMs()] is [now k], the k-th result of [rand()] is [rand k].
      Sleeping only lets wall-clock time pass, which later readings show.
    - An iterator into the scheduling queue is the identity of the entry it
      points to; a default-constructed or erased iterator cannot be erased
      ([Fault InvalidIterator]).
    - A callback is the sequence of calls it makes on the loop ([Cmd]); an
      exception leaves the callback and [run()] at once, with the state the
      loop has at that moment.
    - One thread only: the mutex and the calls of other threads during a
      sleep are outside the model, as are the log lines. *)

From Stdlib Require Import ZArith List String Ascii Bool Lia DecimalString Sorted.
Import ListNotations.
Set Warnings "-register-all".
Local Open Scope string_scope.
Local Open Scope Z_scope.

(** ** Machine integers *)

Definition INT_MIN : Z := - 2 ^ 31.
Definition INT_MAX : Z := 2 ^ 31 - 1.
Definition TS_MIN : Z := - 2 ^ 63.
Definition TS_MAX : Z := 2 ^ 63 - 1.

Definition in_int (z : Z) : bool := (INT_MIN <=? z) && (z <=? INT_MAX).
Definition in_ts (z : Z) : bool := (TS_MIN <=? z) && (z <=? TS_MAX).

(** The value of an [int] expression, when it is representable. *)
Definition chk_int (z : Z) : option Z := if in_int z then Some z else None.
(** The value of a [Ts] (long long) expression, when it is representable. *)
Definition chk_ts (z : Z) : option Z := if in_ts z then Some z else None.

(** std::to_string(int) *)
Definition to_string (z : Z) : string := NilZero.string_of_int (Z.to_int z).

(** std::string::empty() *)
Definition str_empty (s : string) : bool :=
  match s with EmptyString => true | String _ _ => false end.

(** [s] occurs in [t] *)
Definition occurs_in (s t : string) : Prop :=
  exists pre post : string, t = pre ++ s ++ post.

(** ** Results *)

Inductive UB : Type :=
| SignedOverflow
| DivisionByZero
| InvalidIterator
| OutOfBoundsRead.

(** Result of a function that has no loop to leave behind. *)
Inductive Res (A : Type) : Type :=
| Val (a : A)
| Raise (what : string)
| Undef (u : UB).
Arguments Val {A} a.
Arguments Raise {A} what.
Arguments Undef {A} u.

(** ** Completion codes (the anonymous enum of EventLoop) *)

Definition SCHED_IN_ORDER : Z := 0.
Definition ASYNC_COMPLETE_NOT : Z := 0.
Definition ASYNC_COMPLETE_SUCCESS : Z := 1.
Definition ASYNC_COMPLETE_ERROR : Z := 2.
Definition ASYNC_COMPLETE_ABORTED : Z := 3.

Definition TESTLOOP_DEFAULT_DONE_TIMEOUT : Z := 2000.

(** ** Callbacks and the scheduling queue *)

(** The calls a scheduled function makes on the loop, in order.
    [schedCall(func, after = 100, aJitterPct = -1)]: the defaults are written
    out by the caller here. *)
Inductive Cmd : Type :=
| CDone (tag : string)                              (* loop.done(tag) *)
| CDoneDefault                                      (* loop.done() *)
| CError (tag msg : string)                         (* loop.error(tag, msg) *)
| CErrorMsg (msg : string)                          (* loop.error(msg) *)
| CAbort                                            (* loop.abort() *)
| CSchedCall (func : list Cmd) (after aJitterPct : Z) (* loop.schedCall(...) *)
| CSetJitterPct (pct : Z).                          (* loop.jitterPct = pct *)

(** SchedItemBase: what the queue can call. *)
Inductive SchedItem : Type :=
| UserCall (func : list Cmd)      (* SchedItem<CB> of a schedCall() *)
| DoneTimeout (tag : string).     (* the lambda of addDoneToLoop, capturing tag *)

(** One element of the multimap: its identity (what an iterator to it
    denotes), its key and its mapped value. *)
Record SchedEntry : Type := mkEntry {
  se_id : nat;
  se_ts : Z;
  se_call : SchedItem
}.

(** std::multimap<Ts, ...>: ascending keys, equal keys in insertion order. *)
Definition SchedQueue : Type := list SchedEntry.

(** multimap::emplace: at the upper bound of the equal keys *)
Fixpoint sq_emplace (e : SchedEntry) (q : SchedQueue) : SchedQueue :=
  match q with
  | [] => [e]
  | x :: q' => if se_ts e <? se_ts x then e :: q else x :: sq_emplace e q'
  end.

(** multimap::erase(iterator): [None] when the iterator denotes no element *)
Fixpoint sq_erase (h : nat) (q : SchedQueue) : option SchedQueue :=
  match q with
  | [] => None
  | x :: q' =>
      if Nat.eqb (se_id x) h then Some q'
      else match sq_erase h q' with
           | Some r => Some (x :: r)
           | None => None
           end
  end.

Definition sq_lookup (h : nat) (q : SchedQueue) : option SchedEntry :=
  find (fun x => Nat.eqb (se_id x) h) q.

(** ** done() items *)

Record DoneItem : Type := mkDone {
  tag : string;
  complete : Z;
  deadline : Z;
  order : Z;
  schedItem : option nat
}.

Definition set_complete (v : Z) (d : DoneItem) : DoneItem :=
  mkDone (tag d) v (deadline d) (order d) (schedItem d).
Definition set_deadline (v : Z) (d : DoneItem) : DoneItem :=
  mkDone (tag d) (complete d) v (order d) (schedItem d).
Definition set_order (v : Z) (d : DoneItem) : DoneItem :=
  mkDone (tag d) (complete d) (deadline d) v (schedItem d).
Definition set_schedItem (v : option nat) (d : DoneItem) : DoneItem :=
  mkDone (tag d) (complete d) (deadline d) (order d) v.

(** DoneItem(const char* aTag) *)
Definition DoneItem0 (aTag : string) : DoneItem := mkDone aTag 0 (-1) 0 None.

Definition unknown_property (name aTag : string) : string :=
  "Unknown property '" ++ name ++ "'' of done() with tag '" ++ aTag ++ "'".

(** DoneItem::setVal *)
Definition setVal (name : string) (val : Z) (d : DoneItem) : Res DoneItem :=
  if (name =? "timeout")%string || (name =? "tmo")%string then
    Val (set_deadline val d)
  else if (name =? "order")%string then
    Val (set_order val d)
  else
    Raise (unknown_property name (tag d)).

(** DoneItem(aTag, name1, val1) *)
Definition DoneItem1 (aTag name1 : string) (val1 : Z) : Res DoneItem :=
  setVal name1 val1 (DoneItem0 aTag).

(** DoneItem(aTag, name1, val1, name2, val2) *)
Definition DoneItem2 (aTag name1 : string) (val1 : Z) (name2 : string) (val2 : Z)
  : Res DoneItem :=
  match setVal name1 val1 (DoneItem0 aTag) with
  | Val d => setVal name2 val2 d
  | r => r
  end.

(** std::map<std::string, DoneItem>: the items in ascending order of their
    tags, one per tag. *)
Definition DoneMap : Type := list DoneItem.

(** map::find *)
Fixpoint dm_find (t : string) (m : DoneMap) : option DoneItem :=
  match m with
  | [] => None
  | d :: m' => if (tag d =? t)%string then Some d else dm_find t m'
  end.

(** map::insert: [None] when the key is taken *)
Fixpoint dm_insert (d : DoneItem) (m : DoneMap) : option DoneMap :=
  match m with
  | [] => Some [d]
  | x :: m' =>
      match String.compare (tag d) (tag x) with
      | Lt => Some (d :: m)
      | Eq => None
      | Gt => match dm_insert d m' with
              | Some r => Some (x :: r)
              | None => None
              end
      end
  end.

(** assignment through a reference to the element of key [t] *)
Fixpoint dm_update (t : string) (f : DoneItem -> DoneItem) (m : DoneMap) : DoneMap :=
  match m with
  | [] => []
  | d :: m' => if (tag d =? t)%string then f d :: m' else d :: dm_update t f m'
  end.

(** ** The loop *)

Record Colors : Type := mkColors {
  kColorSuccess : string;
  kColorFail : string;
  kColorNormal : string;
  kColorTag : string;
  kColorWarning : string
}.

Record Loop : Type := mkLoop {
  mLastOrderTs : Z;
  mLastOrderedDoneNo : Z;
  mNextEventTs : Z;
  jitterPct : Z;
  colors : Colors;
  mSchedQueue : SchedQueue;
  mDones : DoneMap;
  defaultDoneTimeout : Z;
  mHasDefaultDone : bool;
  mComplete : Z;
  mErrorTag : string;
  errorMsg : string;
  (* bookkeeping of the model *)
  clockReads : nat;        (* readings of the wall clock so far *)
  randCalls : nat;         (* calls of rand() so far *)
  nextId : nat;            (* identity of the next queue entry *)
  resolved : list string   (* tags whose done() advanced mLastOrderedDoneNo, oldest first *)
}.

Definition with_mLastOrderTs (v : Z) (l : Loop) : Loop :=
  mkLoop v (mLastOrderedDoneNo l) (mNextEventTs l) (jitterPct l) (colors l)
    (mSchedQueue l) (mDones l) (defaultDoneTimeout l) (mHasDefaultDone l)
    (mComplete l) (mErrorTag l) (errorMsg l)
    (clockReads l) (randCalls l) (nextId l) (resolved l).
Definition with_mLastOrderedDoneNo (v : Z) (l : Loop) : Loop :=
  mkLoop (mLastOrderTs l) v (mNextEventTs l) (jitterPct l) (colors l)
    (mSchedQueue l) (mDones l) (defaultDoneTimeout l) (mHasDefaultDone l)
    (mComplete l) (mErrorTag l) (errorMsg l)
    (clockReads l) (randCalls l) (nextId l) (resolved l).
Definition with_mNextEventTs (v : Z) (l : Loop) : Loop :=
  mkLoop (mLastOrderTs l) (mLastOrderedDoneNo l) v (jitterPct l) (colors l)
    (mSchedQueue l) (mDones l) (defaultDoneTimeout l) (mHasDefaultDone l)
    (mComplete l) (mErrorTag l) (errorMsg l)
    (clockReads l) (randCalls l) (nextId l) (resolved l).
Definition with_jitterPct (v : Z) (l : Loop) : Loop :=
  mkLoop (mLastOrderTs l) (mLastOrderedDoneNo l) (mNextEventTs l) v (colors l)
    (mSchedQueue l) (mDones l) (defaultDoneTimeout l) (mHasDefaultDone l)
    (mComplete l) (mErrorTag l) (errorMsg l)
    (clockReads l) (randCalls l) (nextId l) (resolved l).
Definition with_colors (v : Colors) (l : Loop) : Loop :=
  mkLoop (mLastOrderTs l) (mLastOrderedDoneNo l) (mNextEventTs l) (jitterPct l) v
    (mSchedQueue l) (mDones l) (defaultDoneTimeout l) (mHasDefaultDone l)
    (mComplete l) (mErrorTag l) (errorMsg l)
    (clockReads l) (randCalls l) (nextId l) (resolved l).
Definition with_mSchedQueue (v : SchedQueue) (l : Loop) : Loop :=
  mkLoop (mLastOrderTs l) (mLastOrderedDoneNo l) (mNextEventTs l) (jitterPct l) (colors l)
    v (mDones l) (defaultDoneTimeout l) (mHasDefaultDone l)
    (mComplete l) (mErrorTag l) (errorMsg l)
    (clockReads l) (randCalls l) (nextId l) (resolved l).
Definition with_mDones (v : DoneMap) (l : Loop) : Loop :=
  mkLoop (mLastOrderTs l) (mLastOrderedDoneNo l) (mNextEventTs l) (jitterPct l) (colors l)
    (mSchedQueue l) v (defaultDoneTimeout l) (mHasDefaultDone l)
    (mComplete l) (mErrorTag l) (errorMsg l)
    (clockReads l) (randCalls l) (nextId l) (resolved l).
Definition with_mHasDefaultDone (v : bool) (l : Loop) : Loop :=
  mkLoop (mLastOrderTs l) (mLastOrderedDoneNo l) (mNextEventTs l) (jitterPct l) (colors l)
    (mSchedQueue l) (mDones l) (defaultDoneTimeout l) v
    (mComplete l) (mErrorTag l) (errorMsg l)
    (clockReads l) (randCalls l) (nextId l) (resolved l).
Definition with_mComplete (v : Z) (l : Loop) : Loop :=
  mkLoop (mLastOrderTs l) (mLastOrderedDoneNo l) (mNextEventTs l) (jitterPct l) (colors l)
    (mSchedQueue l) (mDones l) (defaultDoneTimeout l) (mHasDefaultDone l)
    v (mErrorTag l) (errorMsg l)
    (clockReads l) (randCalls l) (nextId l) (resolved l).
Definition with_mErrorTag (v : string) (l : Loop) : Loop :=
  mkLoop (mLastOrderTs l) (mLastOrderedDoneNo l) (mNextEventTs l) (jitterPct l) (colors l)
    (mSchedQueue l) (mDones l) (defaultDoneTimeout l) (mHasDefaultDone l)
    (mComplete l) v (errorMsg l)
    (clockReads l) (randCalls l) (nextId l) (resolved l).
Definition with_errorMsg (v : string) (l : Loop) : Loop :=
  mkLoop (mLastOrderTs l) (mLastOrderedDoneNo l) (mNextEventTs l) (jitterPct l) (colors l)
    (mSchedQueue l) (mDones l) (defaultDoneTimeout l) (mHasDefaultDone l)
    (mComplete l) (mErrorTag l) v
    (clockReads l) (randCalls l) (nextId l) (resolved l).
Definition with_clockReads (v : nat) (l : Loop) : Loop :=
  mkLoop (mLastOrderTs l) (mLastOrderedDoneNo l) (mNextEventTs l) (jitterPct l) (colors l)
    (mSchedQueue l) (mDones l) (defaultDoneTimeout l) (mHasDefaultDone l)
    (mComplete l) (mErrorTag l) (errorMsg l)
    v (randCalls l) (nextId l) (resolved l).
Definition with_randCalls (v : nat) (l : Loop) : Loop :=
  mkLoop (mLastOrderTs l) (mLastOrderedDoneNo l) (mNextEventTs l) (jitterPct l) (colors l)
    (mSchedQueue l) (mDones l) (defaultDoneTimeout l) (mHasDefaultDone l)
    (mComplete l) (mErrorTag l) (errorMsg l)
    (clockReads l) v (nextId l) (resolved l).
Definition with_nextId (v : nat) (l : Loop) : Loop :=
  mkLoop (mLastOrderTs l) (mLastOrderedDoneNo l) (mNextEventTs l) (jitterPct l) (colors l)
    (mSchedQueue l) (mDones l) (defaultDoneTimeout l) (mHasDefaultDone l)
    (mComplete l) (mErrorTag l) (errorMsg l)
    (clockReads l) (randCalls l) v (resolved l).
Definition with_resolved (v : list string) (l : Loop) : Loop :=
  mkLoop (mLastOrderTs l) (mLastOrderedDoneNo l) (mNextEventTs l) (jitterPct l) (colors l)
    (mSchedQueue l) (mDones l) (defaultDoneTimeout l) (mHasDefaultDone l)
    (mComplete l) (mErrorTag l) (errorMsg l)
    (clockReads l) (randCalls l) (nextId l) v.

(** Result of a member function of the loop. An exception carries the state
    the loop is left in. *)
Inductive Outcome (A : Type) : Type :=
| Ret (a : A)
| Throw (what : string) (l : Loop)
| Fault (u : UB)
| OutOfFuel.
Arguments Ret {A} a.
Arguments Throw {A} what l.
Arguments Fault {A} u.
Arguments OutOfFuel {A}.

Definition bind {A B : Type} (o : Outcome A) (k : A -> Outcome B) : Outcome B :=
  match o with
  | Ret a => k a
  | Throw what l => Throw what l
  | Fault u => Fault u
  | OutOfFuel => OutOfFuel
  end.

Notation "x <- o ;; k" := (bind o (fun x => k))
  (at level 61, o at next level, right associativity).
Notation "'checked' x <- o ;; k" :=
  (match o with Some x => k | None => Fault SignedOverflow end)
  (at level 61, x name, o at next level, right associativity).

(** ** Member functions of EventLoop *)

Definition ESC : string := String (ascii_of_nat 27) EmptyString.

Definition no_colors : Colors :=
  mkColors EmptyString EmptyString EmptyString EmptyString EmptyString.

Definition tty_colors : Colors :=
  mkColors (ESC ++ "[1;32m") (ESC ++ "[1;31m") (ESC ++ "[0m")
           (ESC ++ "[34m") (ESC ++ "[33m").

Definition nothing_to_run : string :=
  "Nothing to run: not even a single function call has been scheduled".
Definition already_resolved : string :=
  "done() already resloved, can't resolve again".
Definition wrong_order (expected actual : Z) : string :=
  "Did not resolve in expected order. Expected: " ++ to_string expected
  ++ ", actual: " ++ to_string actual.
Definition timeout_msg : string := "Timeout".

(** The members as the in-class initializers and the constructors' init
    lists leave them, before the constructor body runs. *)
Definition init_members (timeout : Z) : Loop :=
  {| mLastOrderTs := 0;
     mLastOrderedDoneNo := 0;
     mNextEventTs := 0xFFFFFFFFFFFFFFF;
     jitterPct := 50;
     colors := no_colors;
     mSchedQueue := [];
     mDones := [];
     defaultDoneTimeout := timeout;
     mHasDefaultDone := false;
     mComplete := 0;
     mErrorTag := EmptyString;
     errorMsg := EmptyString;
     clockReads := 0;
     randCalls := 0;
     nextId := 0;
     resolved := [] |}.

(** usageError: records the message and throws *)
Definition usageError {A : Type} (msg : string) (l : Loop) : Outcome A :=
  Throw msg (with_errorMsg msg l).

(** abort *)
Definition abort (l : Loop) : Loop :=
  if negb (mComplete l =? 0) then l
  else with_mComplete ASYNC_COMPLETE_ABORTED l.

(** the message doError builds for a tagged failure *)
Definition tagged_msg (c : Colors) (t msg : string) : string :=
  "done('" ++ kColorTag c ++ t ++ kColorNormal c ++ "'): " ++ msg.

(** doError *)
Definition doError (msg t : string) (noThrow : bool) (l : Loop) : Outcome Loop :=
  if mComplete l =? ASYNC_COMPLETE_ERROR then Ret l
  else
    let l1 := with_mComplete ASYNC_COMPLETE_ERROR l in
    if negb (str_empty t) then
      match dm_find t (mDones l1) with
      | None => usageError ("error() called with unknown tag: " ++ t) l1
      | Some _ =>
          let l2 := with_mErrorTag t l1 in
          let l3 := with_errorMsg (tagged_msg (colors l2) t msg) l2 in
          let l4 := with_mDones
                      (dm_update t (set_complete ASYNC_COMPLETE_ERROR) (mDones l3)) l3 in
          if negb noThrow then Throw (errorMsg l4) l4 else Ret l4
      end
    else
      let l2 := with_errorMsg msg l1 in
      let l3 := with_mErrorTag t l2 in
      if negb noThrow then Throw msg l3 else Ret l3.

(** error(msg) *)
Definition error (msg : string) (l : Loop) : Outcome Loop :=
  doError msg "_default" false l.

(** error(tag, msg) *)
Definition error_tag (t msg : string) (l : Loop) : Outcome Loop :=
  if str_empty t then
    usageError "error() for a tagged done() item called, but the tag is empty" l
  else doError msg t false l.

(** setWakeupTs *)
Definition setWakeupTs (ts : Z) (l : Loop) : Loop := with_mNextEventTs ts l.

(** schedHandler: the new entry's iterator and the loop *)
Definition schedHandler (handler : SchedItem) (ts : Z) (l : Loop) : nat * Loop :=
  let ret := nextId l in
  let l1 := with_nextId (S ret)
              (with_mSchedQueue (sq_emplace (mkEntry ret ts handler) (mSchedQueue l)) l) in
  (ret, if ts <? mNextEventTs l1 then setWakeupTs ts l1 else l1).

(** addDoneToMap. The duplicate-tag message is built from [item.tag] after
    [item] was moved from; the moved-from tag is taken to be empty. *)
Definition addDoneToMap (item : DoneItem) (l : Loop) : Outcome Loop :=
  let l1 := if (tag item =? "_default")%string then with_mHasDefaultDone true l else l in
  let item1 := if deadline item <? 0 then set_deadline (defaultDoneTimeout l1) item
               else item in
  match dm_insert (set_schedItem None item1) (mDones l1) with
  | Some m => Ret (with_mDones m l1)
  | None => usageError ("addDone: Duplicate done() tag '" ++ EmptyString ++ "'") l1
  end.

Section Oracles.

(** [now k]: the k-th reading of the wall clock, in milliseconds *)
Variable now : nat -> Z.
(** [rand k]: the result of the k-th call of rand() *)
Variable rand : nat -> Z.
(** isatty(1) *)
Variable stdout_is_tty : bool.

(** getTimeMs *)
Definition getTimeMs (l : Loop) : Z * Loop :=
  (now (clockReads l), with_clockReads (S (clockReads l)) l).

(** rand() *)
Definition c_rand (l : Loop) : Z * Loop :=
  (rand (randCalls l), with_randCalls (S (randCalls l)) l).

(** initColors *)
Definition initColors (l : Loop) : Loop :=
  if negb stdout_is_tty then l else with_colors tty_colors l.

(** EventLoop(int timeout) *)
Definition EventLoop_new (timeout : Z) : Outcome Loop :=
  addDoneToMap (DoneItem0 "_default") (init_members timeout).

(** EventLoop(std::vector<DoneItem>&& doneItems, int timeout) *)
Fixpoint addDonesToMap (doneItems : list DoneItem) (l : Loop) : Outcome Loop :=
  match doneItems with
  | [] => Ret l
  | item :: rest => l1 <- addDoneToMap item l ;; addDonesToMap rest l1
  end.

Definition EventLoop_with (doneItems : list DoneItem) (timeout : Z) : Outcome Loop :=
  addDonesToMap doneItems (init_members timeout).

(** The body of the lambda that addDoneToLoop schedules for the item [t].
    The offset from the deadline only feeds a warning line. *)
Definition doneTimeoutHandler (t : string) (l : Loop) : Outcome Loop :=
  match dm_find t (mDones l) with
  | None =>
      doError ("Internal error: done() timeout handler could not find done item" ++ t)
              t false l
  | Some it =>
      let (tm, l1) := getTimeMs l in
      checked d <- chk_ts (deadline it - tm) ;;
      checked offset <- chk_ts (Z.abs d) ;;
      if negb (complete it =? 0) then Ret l1
      else doError timeout_msg (tag it) true l1
  end.

(** addDoneToLoop(DoneItem& item); the reference is the item's key *)
Definition addDoneToLoop (t : string) (l : Loop) : Loop :=
  match dm_find t (mDones l) with
  | None => l
  | Some item =>
      let (h, l1) := schedHandler (DoneTimeout (tag item)) (deadline item) l in
      with_mDones (dm_update t (set_schedItem (Some h)) (mDones l1)) l1
  end.

(** addDone *)
Definition addDone (item : DoneItem) (l : Loop) : Outcome Loop :=
  l1 <- addDoneToMap item l ;; Ret (addDoneToLoop (tag item) l1).

(** The jitter both branches of schedCall add to [ts]:
    [int j = (after*aJitterPct)/100; ts += ((rand() % (2*j)) - j);] *)
Definition add_jitter (after aJitterPct ts : Z) (l : Loop) : Outcome (Z * Loop) :=
  if negb (aJitterPct =? 0) then
    checked p <- chk_int (after * aJitterPct) ;;
    let j := Z.quot p 100 in
    let (r, l1) := c_rand l in
    checked m <- chk_int (2 * j) ;;
    if m =? 0 then Fault DivisionByZero
    else
      checked off <- chk_int (Z.rem r m - j) ;;
      checked ts' <- chk_ts (ts + off) ;;
      Ret (ts', l1)
  else Ret (ts, l).

(** schedCall *)
Definition schedCall (func : list Cmd) (after aJitterPct : Z) (l : Loop) : Outcome Loop :=
  let aJitterPct := if aJitterPct <? 0 then jitterPct l else aJitterPct in
  if after <? 0 then
    checked after' <- chk_int (- after) ;;
    let l1 := if mLastOrderTs l =? 0
              then let (t, l') := getTimeMs l in with_mLastOrderTs t l'
              else l in
    checked ts <- chk_ts (mLastOrderTs l1 + after') ;;
    r <- add_jitter after' aJitterPct ts l1 ;;
    let (ts', l2) := r : Z * Loop in
    let l3 := with_mLastOrderTs ts' l2 in
    Ret (snd (schedHandler (UserCall func) ts' l3))
  else
    let (t, l1) := getTimeMs l in
    checked ts <- chk_ts (t + after) ;;
    r <- add_jitter after aJitterPct ts l1 ;;
    let (ts', l2) := r : Z * Loop in
    Ret (snd (schedHandler (UserCall func) ts' l2)).

(** done(tag) *)
Definition done (t : string) (l : Loop) : Outcome Loop :=
  match dm_find t (mDones l) with
  | None => usageError ("Unknown done() tag '" ++ t ++ "'") l
  | Some it =>
      if negb (complete it =? 0) then doError already_resolved t true l
      else
        match schedItem it with
        | None => Fault InvalidIterator
        | Some h =>
            match sq_erase h (mSchedQueue l) with
            | None => Fault InvalidIterator
            | Some q =>
                let l1 := with_mSchedQueue q l in
                if order it =? 0 then
                  Ret (with_mDones
                         (dm_update t (set_complete ASYNC_COMPLETE_SUCCESS) (mDones l1)) l1)
                else
                  checked n <- chk_int (mLastOrderedDoneNo l1 + 1) ;;
                  let l2 := with_resolved (resolved l1 ++ [tag it])%list
                              (with_mLastOrderedDoneNo n l1) in
                  if negb (order it =? n) then
                    doError (wrong_order (order it) (mLastOrderedDoneNo l2)) (tag it) true l2
                  else
                    Ret (with_mDones
                           (dm_update t (set_complete ASYNC_COMPLETE_SUCCESS) (mDones l2)) l2)
            end
        end
  end.

(** done() *)
Definition done_default (l : Loop) : Outcome Loop := done "_default" l.

(** One call a callback makes. *)
Definition exec_cmd (c : Cmd) (l : Loop) : Outcome Loop :=
  match c with
  | CDone t => done t l
  | CDoneDefault => done_default l
  | CError t msg => error_tag t msg l
  | CErrorMsg msg => error msg l
  | CAbort => Ret (abort l)
  | CSchedCall func after aJitterPct => schedCall func after aJitterPct l
  | CSetJitterPct pct => Ret (with_jitterPct pct l)
  end.

(** A callback body. *)
Fixpoint exec_body (body : list Cmd) (l : Loop) : Outcome Loop :=
  match body with
  | [] => Ret l
  | c :: rest => l1 <- exec_cmd c l ;; exec_body rest l1
  end.

(** Calling the entry popped from the queue. *)
Definition call (c : SchedItem) (l : Loop) : Outcome Loop :=
  match c with
  | UserCall func => exec_body func l
  | DoneTimeout t => doneTimeoutHandler t l
  end.

(** addAllDonesToLoop: the items in key order *)
Fixpoint addDonesToLoop (tnow : Z) (items : list DoneItem) (l : Loop) : Outcome Loop :=
  match items with
  | [] => Ret l
  | item :: rest =>
      checked d <- chk_ts (deadline item + tnow) ;;
      addDonesToLoop tnow rest
        (addDoneToLoop (tag item)
           (with_mDones (dm_update (tag item) (set_deadline d) (mDones l)) l))
  end.

Definition addAllDonesToLoop (l : Loop) : Outcome Loop :=
  let (tnow, l1) := getTimeMs l in
  addDonesToLoop tnow (mDones l1) l1.

(** The while loop of run(). [fuel] bounds the number of iterations. *)
Fixpoint run_loop (fuel : nat) (l : Loop) : Outcome Loop :=
  match fuel with
  | O => OutOfFuel
  | S fuel' =>
      match mSchedQueue l with
      | [] => Ret l
      | sched :: rest =>
          if negb (mComplete l =? 0) then Ret l
          else
            let (t1, l1) := getTimeMs l in
            checked timeToSleep <- chk_ts (se_ts sched - t1) ;;
            (* if (timeToSleep > 0) sleep(timeToSleep): time passes *)
            let (t2, l2) := getTimeMs l1 in
            checked short <- chk_ts (se_ts sched - t2) ;;
            if 2 <? short then run_loop fuel' l2
            else
              let l3 := with_mSchedQueue rest l2 in
              l4 <- call (se_call sched) l3 ;;
              if negb (str_empty (errorMsg l4)) then Ret l4
              else run_loop fuel' l4
      end
  end.

(** The end of run(): [if (!mComplete) mComplete = ASYNC_COMPLETE_SUCCESS] *)
Definition run_finish (l : Loop) : Loop :=
  if mComplete l =? 0 then with_mComplete ASYNC_COMPLETE_SUCCESS l else l.

(** run *)
Definition run (fuel : nat) (l : Loop) : Outcome Loop :=
  let l0 := initColors l in
  match mSchedQueue l0 with
  | [] => Throw nothing_to_run l0
  | _ :: _ =>
      l1 <- addAllDonesToLoop l0 ;;
      l2 <- run_loop fuel l1 ;;
      Ret (run_finish l2)
  end.

End Oracles.

(** completeCodeToString *)
Definition complete_strings : list string :=
  ["ASYNC_COMPLETE_NOT"; "ASYNC_COMPLETE_SUCCESS"; "ASYNC_COMPLETE_ERROR"].

Definition completeCodeToString (code : Z) : Res string :=
  if (code <? 0) || (Z.of_nat (List.length complete_strings) <? code) then
    Raise ("Invalid code value " ++ to_string code)
  else
    match nth_error complete_strings (Z.to_nat code) with
    | Some s => Val s
    | None => Undef OutOfBoundsRead
    end.

(** * Notions used in the statements *)

Definition tick (l : Loop) : Loop := with_clockReads (S (clockReads l)) l.

(** The state an outcome leaves the loop in, when it leaves one. *)
Definition outcome_state (o : Outcome Loop) : option Loop :=
  match o with
  | Ret l => Some l
  | Throw _ l => Some l
  | Fault _ => None
  | OutOfFuel => None
  end.

Definition recognized_option (name : string) : Prop :=
  name = "timeout" \/ name = "tmo" \/ name = "order".

(** The loop after doError has recorded the failure [msg] of the item [t]. *)
Definition failed_with (msg t : string) (l : Loop) : Loop :=
  with_mDones (dm_update t (set_complete ASYNC_COMPLETE_ERROR) (mDones l))
    (with_errorMsg (tagged_msg (colors l) t msg)
       (with_mErrorTag t (with_mComplete ASYNC_COMPLETE_ERROR l))).

(** The loop after doError has recorded the failure [msg] under the empty tag. *)
Definition failed_untagged (msg : string) (l : Loop) : Loop :=
  with_mErrorTag EmptyString
    (with_errorMsg msg (with_mComplete ASYNC_COMPLETE_ERROR l)).

(** The message doError records for the tag [t]. *)
Definition failure_msg (c : Colors) (t msg : string) : string :=
  if str_empty t then msg else tagged_msg c t msg.

(** The loop after a doError that recorded [msg] for [t] and did not throw. *)
Definition recorded (msg t : string) (l : Loop) : Loop :=
  if str_empty t then failed_untagged msg l else failed_with msg t l.

Definition aborted_loop : Loop :=
  with_mComplete ASYNC_COMPLETE_ABORTED
    (with_mDones [DoneItem0 "_default"] (init_members 2000)).

Section Timing.

Variable now : nat -> Z.

(** The head entry [sched] is due: the two readings of the clock that an
    iteration takes leave at most 2 ms to wait. *)
Definition due (sched : SchedEntry) (l : Loop) : Prop :=
  in_ts (se_ts sched - now (clockReads l)) = true /\
  in_ts (se_ts sched - now (S (clockReads l))) = true /\
  se_ts sched - now (S (clockReads l)) <= 2.

(** The loop when the head entry has been taken out of the queue. *)
Definition popped (rest : SchedQueue) (l : Loop) : Loop :=
  with_mSchedQueue rest (tick (tick l)).

(** The jitter percentage schedCall works with. *)
Definition effective_jitter (aJitterPct : Z) (l : Loop) : Z :=
  if aJitterPct <? 0 then jitterPct l else aJitterPct.

(** The timestamp a chained schedCall adds to: the cursor, or the current
    time when the cursor was never set. *)
Definition chain_start (l : Loop) : Z :=
  if mLastOrderTs l =? 0 then now (clockReads l) else mLastOrderTs l.

(** The timestamp schedCall adds the magnitude of [after] to. *)
Definition sched_base (after : Z) (l : Loop) : Z :=
  if after <? 0 then chain_start l else now (clockReads l).

End Timing.


(** ** The invariant of a running loop *)


(** The fields the invariant reads are the same in both loops. *)
Definition same_frame (l l' : Loop) : Prop :=
  mDones l' = mDones l /\
  mLastOrderedDoneNo l' = mLastOrderedDoneNo l /\
  resolved l' = resolved l /\
  mComplete l' = mComplete l /\
  errorMsg l' = errorMsg l /\
  mSchedQueue l' = mSchedQueue l /\
  nextId l' = nextId l.

Section Invariant.

(** [reg t]: the order the item registered under [t] was given, if any. *)
Variable reg : string -> option Z.



End Invariant.


(** The identities in the queue are distinct. *)
Fixpoint distinct_ids (q : SchedQueue) : bool :=
  match q with
  | [] => true
  | e :: q' => negb (existsb (fun x => Nat.eqb (se_id x) (se_id e)) q') && distinct_ids q'
  end.

(** A loop on which run() may be called: constructed, calls scheduled, no
    item resolved or failed yet. *)
Definition readyb (l : Loop) : bool :=
  (mComplete l =? 0) && str_empty (errorMsg l) &&
  (mLastOrderedDoneNo l =? 0) &&
  match resolved l with [] => true | _ :: _ => false end &&
  forallb (fun d => complete d =? 0) (mDones l) &&
  distinct_ids (mSchedQueue l) &&
  forallb (fun e => Nat.ltb (se_id e) (nextId l)) (mSchedQueue l).

(** What [readyb] says of a loop, as propositions. *)
Record Fresh (l : Loop) : Prop := mkFresh {
  fresh_code : mComplete l = 0;
  fresh_msg : errorMsg l = EmptyString;
  fresh_count : mLastOrderedDoneNo l = 0;
  fresh_log : resolved l = [];
  fresh_pending : forall t d, dm_find t (mDones l) = Some d -> complete d = 0;
  fresh_nodup : NoDup (map se_id (mSchedQueue l));
  fresh_ids : forall e, In e (mSchedQueue l) -> (se_id e < nextId l)%nat
}.


(** The item under [t] has left the pending state. *)
Definition settled (t : string) (l : Loop) : Prop :=
  exists it, dm_find t (mDones l) = Some it /\ complete it <> 0.

(** From [l] to [l']: a recorded failure stays, and so does every item that
    has left the pending state. *)
Definition advances (l l' : Loop) : Prop :=
  (mComplete l = ASYNC_COMPLETE_ERROR -> mComplete l' = ASYNC_COMPLETE_ERROR) /\
  (forall t, settled t l -> settled t l').

(** The message starts with the letter N. *)
Definition starts_with_N (w : string) : bool :=
  match w with
  | String c _ => Ascii.eqb c "N"
  | EmptyString => false
  end.

(** ** Scenarios *)

(** A clock that advances 40 ms between two readings, and a constant rand(). *)
Definition now0 (k : nat) : Z := 1000000 + 40 * Z.of_nat k.
Definition rand0 (k : nat) : Z := 7.

Definition the_item (r : Res DoneItem) : DoneItem :=
  match r with
  | Val d => d
  | Raise _ => DoneItem0 EmptyString
  | Undef _ => DoneItem0 EmptyString
  end.

Definition the_loop (o : Outcome Loop) : Loop :=
  match o with
  | Ret l => l
  | Throw _ l => l
  | Fault _ => init_members 0
  | OutOfFuel => init_members 0
  end.

(** EventLoop loop; with nothing scheduled. *)
Definition default_loop : Loop := the_loop (EventLoop_new 2000).

(** Items a (order 1) and b (order 2); one call resolves a, then b. *)
Definition in_order_loop : Loop :=
  the_loop (l <- EventLoop_with [the_item (DoneItem1 "a" "order" 1);
                                 the_item (DoneItem1 "b" "order" 2)] 2000 ;;
            schedCall now0 rand0 [CDone "a"; CDone "b"] 100 0 l).


(** Items a (order 2) and _default; one call resolves a out of its turn and
    then _default twice. *)
Definition late_twice_loop : Loop :=
  the_loop (l <- EventLoop_with [the_item (DoneItem1 "a" "order" 2);
                                 DoneItem0 "_default"] 2000 ;;
            schedCall now0 rand0 [CDone "a"; CDoneDefault; CDoneDefault] 100 0 l).

(** A clock that advances 500 ms between two readings. *)
Definition now1 (k : nat) : Z := 1000000 + 500 * Z.of_nat k.

(** Item x with a timeout of 500 ms that nothing resolves; the only call is
    scheduled after the timeout. *)
Definition timeout_loop : Loop :=
  the_loop (l <- EventLoop_with [the_item (DoneItem1 "x" "timeout" 500)] 2000 ;;
            schedCall now1 rand0 [] 2000 0 l).

(** [timeout_loop] after addAllDonesToLoop. *)
Definition timeout_armed : Loop := the_loop (addAllDonesToLoop now1 timeout_loop).

(** A loop whose item _default is resolved. *)
Definition resolved_loop : Loop :=
  with_mDones [set_complete ASYNC_COMPLETE_SUCCESS (DoneItem0 "_default")]
    (init_members 2000).


(** [l] after addAllDonesToLoop. *)
Definition armed_loop (l : Loop) : Loop := the_loop (addAllDonesToLoop now0 l).

(** [l] when the loop has taken the first entry out of the queue and the
    callback has made the calls [body]. *)
Definition in_callback (body : list Cmd) (l : Loop) : Loop :=
  the_loop (exec_body now0 rand0 body (popped (tl (mSchedQueue l)) l)).


(** [late_twice_loop] in its callback, before the second call done(). *)
Definition late_twice_mid : Loop :=
  in_callback [CDone "a"; CDoneDefault] (armed_loop late_twice_loop).

(** ** Order of the queue and of the item map *)

(** The queue is in ascending order of its timestamps. *)
Definition ts_sorted (q : SchedQueue) : Prop :=
  StronglySorted (fun a b => se_ts a <= se_ts b) q.

(** The item map is in strictly ascending order of its tags. *)
Definition tags_sorted (m : DoneMap) : Prop :=
  StronglySorted (fun a b => String.compare (tag a) (tag b) = Lt) m.

(** The item addDoneToMap puts into the map for [item]. *)
Definition stored (timeout : Z) (item : DoneItem) : DoneItem :=
  set_schedItem None
    (if deadline item <? 0 then set_deadline timeout item else item).

(** The magnitude of the jitter schedCall computes. *)
Definition jitter_of (after pct : Z) : Z := Z.quot (Z.abs after * pct) 100.



(** The option name is one of the two that set the deadline. *)
Definition names_deadline (name : string) : bool :=
  (name =? "timeout")%string || (name =? "tmo")%string.

(** The option name is the one that sets the order. *)
Definition names_order (name : string) : bool := (name =? "order")%string.

(** A queue of two calls, at 10 and at 20. *)
Definition two_calls : SchedQueue :=
  [mkEntry 0 10 (UserCall []); mkEntry 1 20 (UserCall [])].

(** The items a and b, as constructed without options. *)
Definition items_ab : list DoneItem := [DoneItem0 "a"; DoneItem0 "b"].


(** * Properties *)

(** ** Small facts about the data *)

Lemma chk_int_in (z : Z) : INT_MIN <= z <= INT_MAX -> chk_int z = Some z.
Proof.
  intros [Hlo Hhi]. unfold chk_int, in_int.
  apply Z.leb_le in Hlo. apply Z.leb_le in Hhi. now rewrite Hlo, Hhi.
Qed.

Lemma chk_ts_in (z : Z) : TS_MIN <= z <= TS_MAX -> chk_ts z = Some z.
Proof.
  intros [Hlo Hhi]. unfold chk_ts, in_ts.
  apply Z.leb_le in Hlo. apply Z.leb_le in Hhi. now rewrite Hlo, Hhi.
Qed.


Lemma chk_ts_some (z r : Z) : chk_ts z = Some r -> r = z.
Proof. unfold chk_ts. destruct (in_ts z); congruence. Qed.

Lemma occurs_in_suffix (pre s : string) : occurs_in s (pre ++ s).
Proof.
  exists pre, EmptyString. f_equal.
  induction s as [|c s IH]; simpl; [reflexivity | now rewrite <- IH].
Qed.

Lemma occurs_in_refl (s : string) : occurs_in s s.
Proof. apply (occurs_in_suffix EmptyString). Qed.

Lemma append_assoc (a b c : string) : (a ++ b) ++ c = a ++ b ++ c.
Proof. induction a as [|x a IH]; simpl; [reflexivity | now rewrite IH]. Qed.

Lemma occurs_in_append_l (s a b : string) : occurs_in s a -> occurs_in s (a ++ b).
Proof.
  intros (pre & post & ->). exists pre, (post ++ b).
  now rewrite !append_assoc.
Qed.

Lemma occurs_in_append_r (s a b : string) : occurs_in s b -> occurs_in s (a ++ b).
Proof.
  intros (pre & post & ->). exists (a ++ pre), post.
  now rewrite !append_assoc.
Qed.

Lemma str_empty_true (s : string) : str_empty s = true -> s = EmptyString.
Proof. destruct s; simpl; congruence. Qed.

Lemma dm_find_tag (t : string) (m : DoneMap) (d : DoneItem) :
  dm_find t m = Some d -> tag d = t.
Proof.
  induction m as [|x m IH]; simpl; [discriminate|].
  destruct (String.eqb_spec (tag x) t) as [E|E]; [|exact IH].
  intros H. injection H as <-. exact E.
Qed.

Lemma dm_find_In (t : string) (m : DoneMap) (d : DoneItem) :
  dm_find t m = Some d -> In d m.
Proof.
  induction m as [|x m IH]; simpl; [discriminate|].
  destruct (tag x =? t)%string.
  - intros H. injection H as <-. now left.
  - intros H. right. now apply IH.
Qed.

(** What [dm_update] leaves under each key, when [f] keeps the tag. *)
Lemma dm_find_update (t u : string) (f : DoneItem -> DoneItem) (m : DoneMap) :
  (forall d, tag (f d) = tag d) ->
  dm_find u (dm_update t f m) =
    if (u =? t)%string then option_map f (dm_find u m) else dm_find u m.
Proof.
  intros Hf. induction m as [|x m IH]; simpl.
  - now destruct (u =? t)%string.
  - destruct (String.eqb_spec (tag x) t) as [Ext|Ext]; simpl.
    + rewrite Hf. destruct (String.eqb_spec (tag x) u) as [Exu|Exu].
      * assert (u = t) as -> by congruence. now rewrite String.eqb_refl.
      * destruct (String.eqb_spec u t) as [Eut|Eut]; [congruence | reflexivity].
    + destruct (String.eqb_spec (tag x) u) as [Exu|Exu]; [|exact IH].
      destruct (String.eqb_spec u t) as [Eut|Eut]; [congruence | reflexivity].
Qed.

(** ** completeCodeToString *)

(** C9. The validity check of completeCodeToString rejects exactly the codes
    below 0 and above 3, the name array has three entries, the codes 0..2
    get their names, and ASYNC_COMPLETE_ABORTED = 3 passes the check and
    reads one element past the end of the array. *)
Theorem completeCodeToString_aborted_reads_past_end :
  List.length complete_strings = 3%nat /\
  ASYNC_COMPLETE_ABORTED = 3 /\
  (forall code : Z,
      (exists what, completeCodeToString code = Raise what) <-> code < 0 \/ 3 < code) /\
  (forall code : Z, 0 <= code <= 2 ->
      exists name, completeCodeToString code = Val name /\ In name complete_strings) /\
  completeCodeToString ASYNC_COMPLETE_ABORTED = Undef OutOfBoundsRead.
Proof.
  split; [reflexivity|]. split; [reflexivity|]. split; [|split].
  - intros code. unfold completeCodeToString. simpl List.length.
    change (Z.of_nat 3) with 3.
    destruct (Z.ltb_spec code 0) as [Hneg|Hnn]; simpl.
    + split; [intros _; now left | intros _; eauto].
    + destruct (Z.ltb_spec 3 code) as [Hbig|Hsmall].
      * split; [intros _; now right | intros _; eauto].
      * split; [|lia]. intros [what H].
        assert (Hc : code = 0 \/ code = 1 \/ code = 2 \/ code = 3) by lia.
        destruct Hc as [-> | [-> | [-> | ->]]]; discriminate H.
  - intros code Hc.
    assert (Hcases : code = 0 \/ code = 1 \/ code = 2) by lia.
    destruct Hcases as [-> | [-> | ->]]; eexists; (split; [reflexivity|]); simpl; auto.
  - reflexivity.
Qed.

(** ** DoneItem::setVal *)

(** C6 as stated fails: the name "tmo" is neither "timeout" nor "order", and
    setVal accepts it (as the deadline). *)
Lemma setVal_accepts_tmo :
  "tmo" <> "timeout" /\ "tmo" <> "order" /\
  setVal "tmo" 7 (DoneItem0 "x") = Val (mkDone "x" 0 7 0 None).
Proof. repeat split; discriminate. Qed.

(** C6, amended. setVal recognizes exactly the names "timeout", "tmo" and
    "order": the first two set the deadline, the third the order, and every
    other name throws a message that holds the name and the item's tag. *)
Theorem setVal_recognizes_three_names (name : string) (val : Z) (d : DoneItem) :
  (name = "timeout" \/ name = "tmo" -> setVal name val d = Val (set_deadline val d)) /\
  (name = "order" -> setVal name val d = Val (set_order val d)) /\
  (~ recognized_option name ->
     setVal name val d = Raise (unknown_property name (tag d)) /\
     occurs_in name (unknown_property name (tag d)) /\
     occurs_in (tag d) (unknown_property name (tag d))) /\
  ((exists d', setVal name val d = Val d') <-> recognized_option name).
Proof.
  unfold setVal, recognized_option.
  destruct (String.eqb_spec name "timeout") as [E1|E1];
    [subst; simpl; repeat split; try tauto; try discriminate; eauto;
     intros H; exfalso; apply H; auto |].
  destruct (String.eqb_spec name "tmo") as [E2|E2];
    [subst; simpl; repeat split; try tauto; try discriminate; eauto;
     intros H; exfalso; apply H; auto |].
  destruct (String.eqb_spec name "order") as [E3|E3];
    [subst; simpl; repeat split; try tauto; try discriminate; eauto;
     intros H; exfalso; apply H; auto |].
  simpl. repeat split; try tauto.
  - unfold unknown_property. apply occurs_in_append_r, occurs_in_append_l, occurs_in_refl.
  - unfold unknown_property.
    do 3 apply occurs_in_append_r. apply occurs_in_append_l, occurs_in_refl.
  - intros [d' H]. discriminate H.
Qed.

Lemma setVal_recognizes_three_names_witness :
  ~ recognized_option "delay" /\
  setVal "delay" 3 (DoneItem0 "x") = Raise "Unknown property 'delay'' of done() with tag 'x'".
Proof.
  assert (Hn : ~ recognized_option "delay")
    by (intros [H|[H|H]]; discriminate H).
  split; [exact Hn|].
  exact (proj1 (proj1 (proj2 (proj2
           (setVal_recognizes_three_names "delay" 3 (DoneItem0 "x")))) Hn)).
Defined.

(** ** doError and abort *)

Lemma doError_first_wins (msg t : string) (noThrow : bool) (l : Loop) :
  mComplete l = ASYNC_COMPLETE_ERROR -> doError msg t noThrow l = Ret l.
Proof. intros H. unfold doError. now rewrite H. Qed.

Lemma doError_tagged (msg t : string) (noThrow : bool) (l : Loop) (it : DoneItem) :
  mComplete l <> ASYNC_COMPLETE_ERROR ->
  str_empty t = false ->
  dm_find t (mDones l) = Some it ->
  doError msg t noThrow l =
    if noThrow then Ret (failed_with msg t l)
    else Throw (tagged_msg (colors l) t msg) (failed_with msg t l).
Proof.
  intros Hc Ht Hf. unfold doError.
  destruct (Z.eqb_spec (mComplete l) ASYNC_COMPLETE_ERROR) as [E|_]; [contradiction|].
  rewrite Ht. simpl. rewrite Hf. now destruct noThrow.
Qed.

Lemma doError_untagged (msg t : string) (noThrow : bool) (l : Loop) :
  mComplete l <> ASYNC_COMPLETE_ERROR ->
  str_empty t = true ->
  doError msg t noThrow l =
    if noThrow then Ret (failed_untagged msg l)
    else Throw msg (failed_untagged msg l).
Proof.
  intros Hc Ht. unfold doError.
  destruct (Z.eqb_spec (mComplete l) ASYNC_COMPLETE_ERROR) as [E|_]; [contradiction|].
  rewrite Ht. simpl. apply str_empty_true in Ht. subst t. now destruct noThrow.
Qed.

(** Whatever doError does, the loop is in the Error state afterwards. *)
Lemma doError_leaves_error (msg t : string) (noThrow : bool) (l : Loop) :
  exists l', outcome_state (doError msg t noThrow l) = Some l' /\
             mComplete l' = ASYNC_COMPLETE_ERROR.
Proof.
  unfold doError.
  destruct (Z.eqb_spec (mComplete l) ASYNC_COMPLETE_ERROR) as [E|_].
  - exists l. now split.
  - destruct (str_empty t); simpl.
    + destruct noThrow; simpl; eexists; split; reflexivity.
    + destruct (dm_find t (mDones l)).
      * destruct noThrow; simpl; eexists; split; reflexivity.
      * simpl. eexists; split; reflexivity.
Qed.

(** C8. doError returns at once only when the loop is already in the Error
    state. On an Aborted loop it goes on: the state becomes Error, and for
    the empty tag or the tag of a registered item the message and the tag
    are set; abort() itself never undoes a terminal state. *)
Theorem doError_overwrites_aborted (msg t : string) (noThrow : bool) (l : Loop) :
  (mComplete l = ASYNC_COMPLETE_ERROR -> doError msg t noThrow l = Ret l) /\
  (mComplete l = ASYNC_COMPLETE_ABORTED ->
     exists l',
       outcome_state (doError msg t noThrow l) = Some l' /\
       mComplete l' = ASYNC_COMPLETE_ERROR /\
       (str_empty t = true -> l' = failed_untagged msg l /\
          errorMsg l' = msg /\ mErrorTag l' = t) /\
       (str_empty t = false -> dm_find t (mDones l) <> None ->
          l' = failed_with msg t l /\
          errorMsg l' = tagged_msg (colors l) t msg /\ mErrorTag l' = t) /\
       (noThrow = true -> str_empty t = true \/ dm_find t (mDones l) <> None ->
          doError msg t noThrow l = Ret l')) /\
  (mComplete l = ASYNC_COMPLETE_NOT ->
     mComplete (abort l) = ASYNC_COMPLETE_ABORTED /\
     exists l', outcome_state (doError msg t noThrow (abort l)) = Some l' /\
                mComplete l' = ASYNC_COMPLETE_ERROR).
Proof.
  split; [apply doError_first_wins|]. split.
  - intros Hab.
    assert (Hne : mComplete l <> ASYNC_COMPLETE_ERROR) by (rewrite Hab; discriminate).
    destruct (str_empty t) eqn:Ht.
    + exists (failed_untagged msg l).
      rewrite (doError_untagged msg t noThrow l Hne Ht).
      split; [now destruct noThrow|]. split; [reflexivity|].
      split; [|split].
      * intros _. apply str_empty_true in Ht. subst t. repeat split.
      * discriminate.
      * now intros ->.
    + destruct (dm_find t (mDones l)) as [it|] eqn:Hf.
      * exists (failed_with msg t l).
        rewrite (doError_tagged msg t noThrow l it Hne Ht Hf).
        split; [now destruct noThrow|]. split; [reflexivity|].
        split; [discriminate|]. split; [intros _ _; repeat split|].
        now intros ->.
      * destruct (doError_leaves_error msg t noThrow l) as (l' & Hs & Hc).
        exists l'. split; [exact Hs|]. split; [exact Hc|].
        split; [discriminate|]. split; [intros _ H; now contradiction H|].
        intros _ [H|H]; [discriminate H | now contradiction H].
  - intros H0. unfold abort. rewrite H0. simpl. split; [reflexivity|].
    apply doError_leaves_error.
Qed.

Lemma doError_overwrites_aborted_witness :
  mComplete aborted_loop = ASYNC_COMPLETE_ABORTED /\
  exists l',
    doError "boom" "_default" true aborted_loop = Ret l' /\
    mComplete l' = ASYNC_COMPLETE_ERROR /\
    errorMsg l' = "done('_default'): boom" /\ mErrorTag l' = "_default".
Proof.
  split; [reflexivity|].
  destruct (proj1 (proj2 (doError_overwrites_aborted "boom" "_default" true aborted_loop))
              eq_refl) as (l' & Hs & Hc & _ & Htag & Hret).
  exists l'.
  destruct (Htag eq_refl) as (_ & Hm & Ht); [discriminate|].
  split; [apply Hret; [reflexivity | right; discriminate]|].
  repeat split; assumption.
Defined.

(** ** The loop of run() *)

Section Run.

Variable now : nat -> Z.
Variable rand : nat -> Z.
Variable stdout_is_tty : bool.

Lemma run_loop_terminal (fuel : nat) (l : Loop) :
  mComplete l <> 0 -> run_loop now rand (S fuel) l = Ret l.
Proof.
  intros H. simpl. destruct (mSchedQueue l); [reflexivity|].
  destruct (Z.eqb_spec (mComplete l) 0); [contradiction | reflexivity].
Qed.

Lemma run_loop_drained (fuel : nat) (l : Loop) :
  mSchedQueue l = [] -> run_loop now rand (S fuel) l = Ret l.
Proof. intros H. simpl. now rewrite H. Qed.

Lemma run_loop_fire (fuel : nat) (l : Loop) (sched : SchedEntry) (rest : SchedQueue) :
  mSchedQueue l = sched :: rest ->
  mComplete l = 0 ->
  due now sched l ->
  run_loop now rand (S fuel) l =
    (l4 <- call now rand (se_call sched) (popped rest l) ;;
     if negb (str_empty (errorMsg l4)) then Ret l4 else run_loop now rand fuel l4).
Proof.
  intros Hq Hc (H1 & H2 & H3). simpl. rewrite Hq, Hc. simpl.
  unfold chk_ts. rewrite H1. simpl. rewrite H2.
  destruct (Z.ltb_spec 2 (se_ts sched - now (S (clockReads l)))) as [Hlt|_]; [lia|].
  reflexivity.
Qed.

Lemma run_finish_terminal (l : Loop) : mComplete l <> 0 -> run_finish l = l.
Proof.
  intros H. unfold run_finish.
  destruct (Z.eqb_spec (mComplete l) 0); [contradiction | reflexivity].
Qed.


(** ** schedCall *)



(** C10. A schedCall whose jitter percentage is positive and whose delay is
    so small that (delay * percentage) / 100 is 0 computes rand() % (2*0):
    with the delay's magnitude added to the current time (delay >= 0) or to
    the chain's cursor (delay < 0), the call ends in a division by zero. *)
Theorem schedCall_small_delay_divides_by_zero
    (func : list Cmd) (after aJitterPct : Z) (l : Loop) :
  0 < effective_jitter aJitterPct l ->
  Z.quot (Z.abs after * effective_jitter aJitterPct l) 100 = 0 ->
  in_ts (sched_base now after l + Z.abs after) = true ->
  schedCall now rand func after aJitterPct l = Fault DivisionByZero.
Proof.
  intros Hpos Hq Hts.
  apply Z.quot_small_iff in Hq; [|discriminate].
  change (Z.abs 100) with 100 in Hq.
  set (pct := effective_jitter aJitterPct l) in *.
  assert (Habs : Z.abs after * pct < 100)
    by (rewrite Z.abs_eq in Hq by (apply Z.mul_nonneg_nonneg; lia); exact Hq).
  assert (Hsmall : Z.abs after < 100) by nia.
  assert (Hpct0 : (pct =? 0) = false) by (apply Z.eqb_neq; lia).
  unfold schedCall. fold (effective_jitter aJitterPct l). fold pct.
  unfold sched_base in Hts.
  destruct (Z.ltb_spec after 0) as [Hneg|Hnn].
  - rewrite Z.abs_neq in Habs, Hsmall, Hts by lia.
    rewrite (chk_int_in (- after)) by (unfold INT_MIN, INT_MAX; lia).
    assert (Hcur : mLastOrderTs
                     (if mLastOrderTs l =? 0
                      then let (t, l') := getTimeMs now l in with_mLastOrderTs t l'
                      else l) = chain_start now l).
    { unfold chain_start. destruct (mLastOrderTs l =? 0); reflexivity. }
    rewrite Hcur. unfold chk_ts at 1. rewrite Hts.
    unfold add_jitter. rewrite Hpct0. cbn [negb].
    rewrite (chk_int_in (- after * pct)) by (unfold INT_MIN, INT_MAX; nia).
    assert (Hj : Z.quot (- after * pct) 100 = 0)
      by (apply Z.quot_small; nia).
    rewrite Hj. reflexivity.
  - rewrite Z.abs_eq in Habs, Hsmall, Hts by lia.
    cbn [getTimeMs]. unfold chk_ts at 1. rewrite Hts.
    unfold add_jitter. rewrite Hpct0. cbn [negb].
    rewrite (chk_int_in (after * pct)) by (unfold INT_MIN, INT_MAX; nia).
    assert (Hj : Z.quot (after * pct) 100 = 0)
      by (apply Z.quot_small; nia).
    rewrite Hj. reflexivity.
Qed.

(** ** The timeout of a done() item *)

Lemma doError_recorded (msg t : string) (l : Loop) :
  mComplete l <> ASYNC_COMPLETE_ERROR ->
  str_empty t = true \/ dm_find t (mDones l) <> None ->
  doError msg t true l = Ret (recorded msg t l) /\
  mComplete (recorded msg t l) = ASYNC_COMPLETE_ERROR /\
  mErrorTag (recorded msg t l) = t /\
  errorMsg (recorded msg t l) = failure_msg (colors l) t msg.
Proof.
  intros Hc Ht. unfold recorded, failure_msg.
  destruct (str_empty t) eqn:Et.
  - rewrite (doError_untagged msg t true l Hc Et).
    apply str_empty_true in Et. subst t. repeat split.
  - destruct Ht as [Ht|Ht]; [discriminate Ht|].
    destruct (dm_find t (mDones l)) as [it|] eqn:Hf; [|now contradiction Ht].
    rewrite (doError_tagged msg t true l it Hc Et Hf). repeat split.
Qed.

Lemma failure_msg_nonempty (c : Colors) (t msg : string) :
  str_empty msg = false -> str_empty (failure_msg c t msg) = false.
Proof. intros H. unfold failure_msg. now destruct (str_empty t). Qed.

Lemma failure_msg_occurs (c : Colors) (t msg : string) :
  occurs_in msg (failure_msg c t msg) /\ occurs_in t (failure_msg c t msg).
Proof.
  unfold failure_msg. destruct (str_empty t) eqn:Et.
  - split; [apply occurs_in_refl|].
    apply str_empty_true in Et. subst t. now exists EmptyString, msg.
  - unfold tagged_msg. split.
    + do 4 apply occurs_in_append_r. apply occurs_in_suffix.
    + do 2 apply occurs_in_append_r. apply occurs_in_append_l, occurs_in_refl.
Qed.

Lemma doneTimeoutHandler_found (t : string) (it : DoneItem) (l : Loop) :
  dm_find t (mDones l) = Some it ->
  Z.abs (deadline it - now (clockReads l)) <= TS_MAX ->
  doneTimeoutHandler now t l =
    if negb (complete it =? 0) then Ret (tick l)
    else doError timeout_msg t true (tick l).
Proof.
  intros Hf Hoff. unfold doneTimeoutHandler. rewrite Hf. cbn [getTimeMs].
  rewrite (chk_ts_in (deadline it - now (clockReads l)))
    by (unfold TS_MIN, TS_MAX in *; lia).
  rewrite (chk_ts_in (Z.abs _)) by (unfold TS_MIN, TS_MAX in *; lia).
  now rewrite (dm_find_tag t _ it Hf).
Qed.

(** C5. The timeout entry of the item [t] is at the head of the queue and
    due, so the loop takes it out and calls it. If the item is still pending
    the loop ends there, in the Error state, with the tag [t] and a message
    that holds the word Timeout (and the tag); the end of run() keeps that
    state. If the item was resolved, the call only reads the clock: state,
    message, tag, items and queue are those of the loop before the call. *)
Theorem done_timeout_fires
    (fuel : nat) (l : Loop) (sched : SchedEntry) (rest : SchedQueue)
    (t : string) (it : DoneItem) :
  mSchedQueue l = sched :: rest ->
  mComplete l = ASYNC_COMPLETE_NOT ->
  due now sched l ->
  se_call sched = DoneTimeout t ->
  dm_find t (mDones l) = Some it ->
  Z.abs (deadline it - now (S (S (clockReads l)))) <= TS_MAX ->
  (complete it = ASYNC_COMPLETE_NOT ->
     exists l',
       run_loop now rand (S fuel) l = Ret l' /\
       l' = recorded timeout_msg t (tick (popped rest l)) /\
       mComplete l' = ASYNC_COMPLETE_ERROR /\
       mErrorTag l' = t /\
       errorMsg l' = failure_msg (colors l) t "Timeout" /\
       occurs_in "Timeout" (errorMsg l') /\
       occurs_in t (errorMsg l') /\
       run_finish l' = l') /\
  (complete it <> ASYNC_COMPLETE_NOT ->
     let l' := tick (popped rest l) in
     call now rand (DoneTimeout t) (popped rest l) = Ret l' /\
     mComplete l' = mComplete l /\
     errorMsg l' = errorMsg l /\
     mErrorTag l' = mErrorTag l /\
     mDones l' = mDones l /\
     mSchedQueue l' = rest /\
     run_loop now rand (S fuel) l =
       if negb (str_empty (errorMsg l)) then Ret l' else run_loop now rand fuel l').
Proof.
  intros Hq Hc Hdue Hcall Hf Hoff.
  assert (Hh : doneTimeoutHandler now t (popped rest l) =
               if negb (complete it =? 0) then Ret (tick (popped rest l))
               else doError timeout_msg t true (tick (popped rest l)))
    by (apply doneTimeoutHandler_found; [exact Hf | exact Hoff]).
  rewrite (run_loop_fire fuel l sched rest Hq Hc Hdue), Hcall.
  cbn [call]. rewrite Hh.
  split.
  - intros Hp. rewrite Hp.
    change (negb (ASYNC_COMPLETE_NOT =? 0)) with false. cbv iota.
    destruct (doError_recorded timeout_msg t (tick (popped rest l)))
      as (Hd & Hst & Htag & Hmsg).
    { cbn. rewrite Hc. discriminate. }
    { right. cbn. rewrite Hf. discriminate. }
    exists (recorded timeout_msg t (tick (popped rest l))).
    rewrite Hd. cbn [bind]. rewrite Hmsg.
    rewrite failure_msg_nonempty by reflexivity. cbn [negb].
    split; [reflexivity|]. split; [reflexivity|].
    split; [exact Hst|]. split; [exact Htag|].
    split; [reflexivity|].
    split; [apply failure_msg_occurs|]. split; [apply failure_msg_occurs|].
    apply run_finish_terminal. rewrite Hst. discriminate.
  - intros Hp. cbv zeta.
    destruct (Z.eqb_spec (complete it) 0) as [E|_]; [contradiction|].
    cbn [negb bind]. repeat split.
Qed.

(** ** Queue and item-map facts *)

Lemma sq_emplace_In (e x : SchedEntry) (q : SchedQueue) :
  In x (sq_emplace e q) <-> x = e \/ In x q.
Proof.
  induction q as [|y q IH]; simpl.
  - intuition congruence.
  - destruct (se_ts e <? se_ts y); simpl; [intuition congruence|].
    rewrite IH. intuition congruence.
Qed.

Lemma sq_emplace_nodup (e : SchedEntry) (q : SchedQueue) :
  NoDup (map se_id q) ->
  (forall x, In x q -> se_id x <> se_id e) ->
  NoDup (map se_id (sq_emplace e q)).
Proof.
  induction q as [|y q IH]; simpl; intros Hnd Hne.
  - constructor; [intros [] | constructor].
  - destruct (se_ts e <? se_ts y); simpl.
    + constructor; [|exact Hnd].
      intros Hin. change (se_id y :: map se_id q) with (map se_id (y :: q)) in Hin.
      apply in_map_iff in Hin. destruct Hin as (x & Hx & Hin).
      apply (Hne x Hin Hx).
    + inversion Hnd as [|? ? Hy Hq]; subst. constructor.
      * intros Hin. apply in_map_iff in Hin. destruct Hin as (x & Hx & Hin).
        apply sq_emplace_In in Hin. destruct Hin as [->|Hin].
        -- apply (Hne y); [now left | now symmetry].
        -- apply Hy. apply in_map_iff. now exists x.
      * apply IH; [exact Hq|]. intros x Hx. apply Hne. now right.
Qed.


Lemma sq_erase_other (h : nat) (q q' : SchedQueue) (x : SchedEntry) :
  sq_erase h q = Some q' -> In x q -> se_id x <> h -> In x q'.
Proof.
  revert q'. induction q as [|y q IH]; simpl; intros q' H Hin Hne; [discriminate|].
  destruct (Nat.eqb_spec (se_id y) h) as [E|E].
  - injection H as <-. destruct Hin as [->|Hin]; [contradiction | exact Hin].
  - destruct (sq_erase h q) as [r|]; [|discriminate]. injection H as <-.
    destruct Hin as [->|Hin]; [now left | right; now apply IH].
Qed.



Lemma distinct_ids_nodup (q : SchedQueue) :
  distinct_ids q = true -> NoDup (map se_id q).
Proof.
  induction q as [|e q IH]; simpl; [constructor|].
  intros H. apply andb_true_iff in H. destruct H as [Hn Hd].
  constructor; [|now apply IH].
  intros Hin. apply in_map_iff in Hin. destruct Hin as (x & Hx & Hin).
  apply negb_true_iff in Hn.
  assert (Hex : existsb (fun x => Nat.eqb (se_id x) (se_id e)) q = true).
  { apply existsb_exists. exists x. split; [exact Hin | now apply Nat.eqb_eq]. }
  congruence.
Qed.

Lemma dm_find_set_complete (t u : string) (v : Z) (m : DoneMap) :
  dm_find u (dm_update t (set_complete v) m) =
    if (u =? t)%string then option_map (set_complete v) (dm_find u m) else dm_find u m.
Proof. now apply dm_find_update. Qed.

Lemma dm_find_set_deadline (t u : string) (v : Z) (m : DoneMap) :
  dm_find u (dm_update t (set_deadline v) m) =
    if (u =? t)%string then option_map (set_deadline v) (dm_find u m) else dm_find u m.
Proof. now apply dm_find_update. Qed.

Lemma dm_find_set_schedItem (t u : string) (v : option nat) (m : DoneMap) :
  dm_find u (dm_update t (set_schedItem v) m) =
    if (u =? t)%string then option_map (set_schedItem v) (dm_find u m) else dm_find u m.
Proof. now apply dm_find_update. Qed.


(** ** The invariant is kept *)

Section Kept.

Variable reg : string -> option Z.




















End Kept.
(** ** Arming the items at the start of run() *)

Lemma readyb_Fresh (l : Loop) : readyb l = true -> Fresh l.
Proof.
  unfold readyb. intros H.
  repeat (apply andb_true_iff in H; destruct H as [H ?]).
  constructor.
  - now apply Z.eqb_eq.
  - now apply str_empty_true.
  - now apply Z.eqb_eq.
  - destruct (resolved l); [reflexivity | discriminate].
  - intros t d Hf. apply dm_find_In in Hf.
    match goal with Hall : forallb _ (mDones l) = true |- _ =>
      rewrite forallb_forall in Hall; specialize (Hall d Hf) end.
    now apply Z.eqb_eq.
  - now apply distinct_ids_nodup.
  - intros e He.
    match goal with Hall : forallb _ (mSchedQueue l) = true |- _ =>
      rewrite forallb_forall in Hall; specialize (Hall e He) end.
    now apply Nat.ltb_lt.
Qed.

Lemma schedHandler_spec (hd : SchedItem) (ts : Z) (l : Loop) :
  fst (schedHandler hd ts l) = nextId l /\
  mSchedQueue (snd (schedHandler hd ts l)) =
    sq_emplace (mkEntry (nextId l) ts hd) (mSchedQueue l) /\
  nextId (snd (schedHandler hd ts l)) = S (nextId l) /\
  mDones (snd (schedHandler hd ts l)) = mDones l /\
  mComplete (snd (schedHandler hd ts l)) = mComplete l /\
  errorMsg (snd (schedHandler hd ts l)) = errorMsg l /\
  mLastOrderedDoneNo (snd (schedHandler hd ts l)) = mLastOrderedDoneNo l /\
  resolved (snd (schedHandler hd ts l)) = resolved l.
Proof.
  unfold schedHandler, setWakeupTs. cbn. destruct (ts <? mNextEventTs l); now cbn.
Qed.




(** ** What no call on the loop undoes *)

Lemma advances_refl (l : Loop) : advances l l.
Proof. split; auto. Qed.

Lemma advances_trans (l1 l2 l3 : Loop) :
  advances l1 l2 -> advances l2 l3 -> advances l1 l3.
Proof. intros [A1 A2] [B1 B2]. split; auto. Qed.

Lemma advances_frame (l l' : Loop) :
  mComplete l' = mComplete l -> mDones l' = mDones l -> advances l l'.
Proof.
  intros Hc Hd. split; [now rewrite Hc|].
  intros t (it & Hf & Hne). exists it. now rewrite Hd.
Qed.

Lemma advances_completed (t : string) (v : Z) (l X : Loop) :
  v <> 0 -> mDones X = mDones l ->
  (mComplete l = ASYNC_COMPLETE_ERROR -> mComplete X = ASYNC_COMPLETE_ERROR) ->
  advances l (with_mDones (dm_update t (set_complete v) (mDones X)) X).
Proof.
  intros Hv Hd Hc. split; [exact Hc|].
  intros u (it & Hf & Hne). unfold settled. cbn.
  rewrite Hd, dm_find_set_complete, Hf.
  destruct (u =? t)%string; cbn; eexists; (split; [reflexivity|]); cbn; assumption.
Qed.

Lemma advances_doError (msg t : string) (noThrow : bool) (l l' : Loop) :
  outcome_state (doError msg t noThrow l) = Some l' -> advances l l'.
Proof.
  unfold doError.
  destruct (Z.eqb_spec (mComplete l) ASYNC_COMPLETE_ERROR) as [E|E].
  - cbn. intros H. injection H as <-. apply advances_refl.
  - destruct (str_empty t); cbn [negb].
    + intros H.
      assert (Hl : l' = with_mErrorTag t
                          (with_errorMsg msg (with_mComplete ASYNC_COMPLETE_ERROR l)))
        by (destruct noThrow; cbn in H; injection H as <-; reflexivity).
      subst l'. split; [reflexivity|].
      intros u (it & Hf & Hne). now exists it.
    + cbn. destruct (dm_find t (mDones l)) as [it|].
      * intros H.
        assert (Hl : l' = failed_with msg t l)
          by (destruct noThrow; cbn in H; injection H as <-; reflexivity).
        subst l'.
        apply (advances_completed t ASYNC_COMPLETE_ERROR l
                 (with_errorMsg (tagged_msg (colors l) t msg)
                    (with_mErrorTag t (with_mComplete ASYNC_COMPLETE_ERROR l))));
          [discriminate | reflexivity | reflexivity].
      * cbn. intros H. injection H as <-. split; [reflexivity|].
        intros u (it & Hf & Hne). now exists it.
Qed.

Lemma advances_done (t : string) (l l' : Loop) :
  outcome_state (done t l) = Some l' -> advances l l'.
Proof.
  unfold done, usageError.
  destruct (dm_find t (mDones l)) as [it|] eqn:Hf.
  2: { cbn. intros H. injection H as <-. now apply advances_frame. }
  destruct (negb (complete it =? 0)); [apply advances_doError|].
  destruct (schedItem it) as [h|]; [|discriminate].
  destruct (sq_erase h (mSchedQueue l)) as [q|]; [|discriminate].
  destruct (order it =? 0).
  - cbn. intros H. injection H as <-.
    apply (advances_completed t ASYNC_COMPLETE_SUCCESS l (with_mSchedQueue q l));
      [discriminate | reflexivity | auto].
  - destruct (chk_int _) as [n|]; [|discriminate].
    destruct (negb (order it =? n)).
    + intros H. apply advances_doError in H.
      eapply advances_trans; [|exact H]. now apply advances_frame.
    + cbn. intros H. injection H as <-.
      apply (advances_completed t ASYNC_COMPLETE_SUCCESS l
               (with_resolved (resolved (with_mSchedQueue q l) ++ [tag it])%list
                  (with_mLastOrderedDoneNo n (with_mSchedQueue q l))));
        [discriminate | reflexivity | auto].
Qed.

Lemma advances_schedCall (func : list Cmd) (after aJitterPct : Z) (l l' : Loop) :
  outcome_state (schedCall now rand func after aJitterPct l) = Some l' -> advances l l'.
Proof.
  unfold schedCall, add_jitter, bind, getTimeMs, c_rand.
  repeat match goal with
         | |- context [if ?c then _ else _] => destruct c
         | |- context [match chk_int ?z with _ => _ end] => destruct (chk_int z)
         | |- context [match chk_ts ?z with _ => _ end] => destruct (chk_ts z)
         end.
  all: cbv beta iota zeta; intros H; try discriminate H; cbn [outcome_state] in H;
       injection H as <-.
  all: match goal with
       | |- advances _ (if ?ts <? _
                        then setWakeupTs _ (with_nextId _ (with_mSchedQueue _ ?l0))
                        else _) =>
           change (advances l (snd (schedHandler (UserCall func) ts l0)));
           destruct (schedHandler_spec (UserCall func) ts l0) as (_ & _ & _ & Hd & Hc & _)
       end.
  all: apply advances_frame; [rewrite Hc | rewrite Hd]; reflexivity.
Qed.

Lemma advances_exec_cmd (c : Cmd) (l l' : Loop) :
  outcome_state (exec_cmd now rand c l) = Some l' -> advances l l'.
Proof.
  destruct c; cbn [exec_cmd].
  - apply advances_done.
  - apply advances_done.
  - unfold error_tag, usageError. destruct (str_empty tag0).
    + cbn. intros H. injection H as <-. now apply advances_frame.
    + apply advances_doError.
  - apply advances_doError.
  - cbn. intros H. injection H as <-. unfold abort.
    destruct (Z.eqb_spec (mComplete l) 0) as [E|E]; cbn [negb];
      [|apply advances_refl].
    split; [rewrite E; discriminate|]. intros u (it & Hf & Hne). now exists it.
  - apply advances_schedCall.
  - cbn. intros H. injection H as <-. now apply advances_frame.
Qed.

Lemma advances_exec_body (body : list Cmd) (l l' : Loop) :
  outcome_state (exec_body now rand body l) = Some l' -> advances l l'.
Proof.
  revert l. induction body as [|c body IH]; intros l; cbn [exec_body].
  - cbn. intros H. injection H as <-. apply advances_refl.
  - destruct (exec_cmd now rand c l) as [l1|w lx| |] eqn:Hc; cbn [bind];
      try discriminate.
    + intros H. apply (advances_trans l l1 l'); [|now apply IH].
      apply (advances_exec_cmd c). now rewrite Hc.
    + cbn. intros H. injection H as <-. apply (advances_exec_cmd c). now rewrite Hc.
Qed.

Lemma advances_call (c : SchedItem) (l l' : Loop) :
  outcome_state (call now rand c l) = Some l' -> advances l l'.
Proof.
  destruct c as [func|t]; cbn [call]; [apply advances_exec_body|].
  unfold doneTimeoutHandler.
  destruct (dm_find t (mDones l)) as [it|]; [|apply advances_doError].
  cbn [getTimeMs]. destruct (chk_ts _); [|discriminate].
  destruct (chk_ts _); [|discriminate].
  destruct (negb (complete it =? 0)).
  - cbn. intros H. injection H as <-. now apply advances_frame.
  - intros H. apply advances_doError in H.
    eapply advances_trans; [|exact H]. now apply advances_frame.
Qed.

Lemma advances_run_loop (fuel : nat) (l l' : Loop) :
  outcome_state (run_loop now rand fuel l) = Some l' -> advances l l'.
Proof.
  revert l. induction fuel as [|fuel IH]; intros l; [discriminate|].
  cbn [run_loop].
  destruct (mSchedQueue l) as [|sched rest].
  - cbn. intros H. injection H as <-. apply advances_refl.
  - destruct (negb (mComplete l =? 0)).
    + cbn. intros H. injection H as <-. apply advances_refl.
    + cbn [getTimeMs clockReads with_clockReads].
      destruct (chk_ts _); [|discriminate].
      destruct (chk_ts _); [|discriminate].
      destruct (2 <? _).
      * intros H. apply IH in H.
        eapply advances_trans; [|exact H]. now apply advances_frame.
      * match goal with |- context [call now rand ?c ?l3] =>
          destruct (call now rand c l3) as [l4|w lx| |] eqn:Hcall;
          assert (Hpop : advances l l3) by now apply advances_frame
        end; cbn [bind]; try discriminate.
        -- assert (H4 : advances l l4).
           { apply (advances_trans l _ l4 Hpop).
             apply (advances_call (se_call sched)). now rewrite Hcall. }
           destruct (negb (str_empty (errorMsg l4))).
           ++ cbn. intros H. now injection H as <-.
           ++ intros H. apply (advances_trans l l4 l' H4). now apply IH.
        -- cbn. intros H. injection H as <-.
           eapply advances_trans; [exact Hpop|].
           apply (advances_call (se_call sched)). now rewrite Hcall.
Qed.

(** ** run() and an empty queue *)

Lemma doError_throws (msg t : string) (noThrow : bool) (l l' : Loop) (w : string) :
  doError msg t noThrow l = Throw w l' ->
  (str_empty t = true /\ noThrow = false /\ w = msg) \/ starts_with_N w = false.
Proof.
  unfold doError, usageError.
  destruct (mComplete l =? ASYNC_COMPLETE_ERROR); [discriminate|].
  destruct (str_empty t); cbn [negb].
  - destruct noThrow; cbn [negb]; [discriminate|].
    intros H. injection H as <- _. left. now repeat split.
  - cbn. destruct (dm_find t (mDones l)).
    + destruct noThrow; cbn [negb]; [discriminate|].
      intros H. injection H as <- _. now right.
    + intros H. injection H as <- _. now right.
Qed.

Lemma exec_cmd_throws (c : Cmd) (l l' : Loop) (w : string) :
  exec_cmd now rand c l = Throw w l' -> starts_with_N w = false.
Proof.
  assert (Hdone : forall t, done t l = Throw w l' -> starts_with_N w = false).
  { intros t. unfold done, usageError.
    destruct (dm_find t (mDones l)) as [it|].
    2: { intros H. injection H as <- _. reflexivity. }
    destruct (negb (complete it =? 0)).
    { intros H. apply doError_throws in H.
      destruct H as [(_ & H & _)|H]; [discriminate H | exact H]. }
    destruct (schedItem it); [|discriminate].
    destruct (sq_erase _ _); [|discriminate].
    destruct (order it =? 0); [discriminate|].
    destruct (chk_int _); [|discriminate].
    destruct (negb _); [|discriminate].
    intros H. apply doError_throws in H.
    destruct H as [(_ & H & _)|H]; [discriminate H | exact H]. }
  destruct c; cbn [exec_cmd].
  - apply Hdone.
  - apply Hdone.
  - unfold error_tag, usageError. destruct (str_empty tag0) eqn:Et.
    + intros H. injection H as <- _. reflexivity.
    + intros H. apply doError_throws in H.
      destruct H as [(H & _)|H]; [congruence | exact H].
  - unfold error. intros H. apply doError_throws in H.
    destruct H as [(H & _)|H]; [discriminate H | exact H].
  - discriminate.
  - unfold schedCall, add_jitter, bind, getTimeMs, c_rand.
    repeat match goal with
           | |- context [if ?c then _ else _] => destruct c
           | |- context [match chk_int ?z with _ => _ end] => destruct (chk_int z)
           | |- context [match chk_ts ?z with _ => _ end] => destruct (chk_ts z)
           end.
    all: cbv beta iota zeta; discriminate.
  - discriminate.
Qed.

Lemma exec_body_throws (body : list Cmd) (l l' : Loop) (w : string) :
  exec_body now rand body l = Throw w l' -> starts_with_N w = false.
Proof.
  revert l. induction body as [|c body IH]; intros l; cbn [exec_body]; [discriminate|].
  destruct (exec_cmd now rand c l) as [l1|w1 lx| |] eqn:Hc; cbn [bind];
    try discriminate.
  - apply IH.
  - intros H. injection H as <- _. eapply exec_cmd_throws. exact Hc.
Qed.

Lemma call_throws (c : SchedItem) (l l' : Loop) (w : string) :
  call now rand c l = Throw w l' -> starts_with_N w = false.
Proof.
  destruct c as [func|t]; cbn [call]; [apply exec_body_throws|].
  unfold doneTimeoutHandler.
  destruct (dm_find t (mDones l)) as [it|].
  - cbn [getTimeMs]. destruct (chk_ts _); [|discriminate].
    destruct (chk_ts _); [|discriminate].
    destruct (negb _); [discriminate|].
    intros H. apply doError_throws in H.
    destruct H as [(_ & H & _)|H]; [discriminate H | exact H].
  - intros H. apply doError_throws in H.
    destruct H as [(_ & _ & ->)|H]; [reflexivity | exact H].
Qed.

Lemma run_loop_throws (fuel : nat) (l l' : Loop) (w : string) :
  run_loop now rand fuel l = Throw w l' -> starts_with_N w = false.
Proof.
  revert l. induction fuel as [|fuel IH]; intros l; [discriminate|].
  cbn [run_loop].
  destruct (mSchedQueue l) as [|sched rest]; [discriminate|].
  destruct (negb (mComplete l =? 0)); [discriminate|].
  cbn [getTimeMs]. destruct (chk_ts _); [|discriminate].
  destruct (chk_ts _); [|discriminate].
  destruct (2 <? _); [apply IH|].
  match goal with |- context [call now rand ?c ?l3] =>
    destruct (call now rand c l3) as [l4|w1 lx| |] eqn:Hcall end;
    cbn [bind]; try discriminate.
  - destruct (negb _); [discriminate | apply IH].
  - intros H. injection H as <- _. eapply call_throws. exact Hcall.
Qed.

Lemma addDonesToLoop_no_throw (tnow : Z) (items : list DoneItem) (l l' : Loop) (w : string) :
  addDonesToLoop tnow items l <> Throw w l'.
Proof.
  revert l. induction items as [|item rest IH]; intros l; cbn [addDonesToLoop];
    [discriminate|].
  destruct (chk_ts _); [apply IH | discriminate].
Qed.

(** C2, amended. run() throws its nothing-to-run error exactly when the
    queue is empty as run() is entered: the items registered with the loop
    do not count, since their timeout entries are only added after the
    check. With an entry in the queue, no exception that leaves run() has
    that message. *)
Theorem run_nothing_to_run_iff_queue_empty (fuel : nat) (l : Loop) :
  (mSchedQueue l = [] ->
     run now rand stdout_is_tty fuel l =
       Throw nothing_to_run (initColors stdout_is_tty l)) /\
  (mSchedQueue l <> [] ->
     forall w l', run now rand stdout_is_tty fuel l = Throw w l' -> w <> nothing_to_run) /\
  ((exists l', run now rand stdout_is_tty fuel l = Throw nothing_to_run l') <->
     mSchedQueue l = []).
Proof.
  assert (Hq : mSchedQueue (initColors stdout_is_tty l) = mSchedQueue l)
    by (unfold initColors; now destruct (negb stdout_is_tty)).
  assert (Hempty : mSchedQueue l = [] ->
                   run now rand stdout_is_tty fuel l =
                     Throw nothing_to_run (initColors stdout_is_tty l)).
  { intros H. unfold run. now rewrite Hq, H. }
  assert (Hfull : mSchedQueue l <> [] ->
                  forall w l', run now rand stdout_is_tty fuel l = Throw w l' ->
                               w <> nothing_to_run).
  { intros Hne w l'. unfold run. rewrite Hq.
    destruct (mSchedQueue l) as [|e q]; [contradiction|].
    unfold addAllDonesToLoop. cbn [getTimeMs].
    match goal with |- context [addDonesToLoop ?a ?b ?c] =>
      destruct (addDonesToLoop a b c) as [l1|w1 lx| |] eqn:Harm end;
      cbn [bind]; try discriminate.
    - destruct (run_loop now rand fuel l1) as [l2|w2 lx| |] eqn:Hloop;
        cbn [bind]; try discriminate.
      intros H. injection H as <- _. apply run_loop_throws in Hloop.
      intros ->. discriminate Hloop.
    - exfalso. now apply addDonesToLoop_no_throw in Harm. }
  split; [exact Hempty|]. split; [exact Hfull|]. split.
  - intros [l' H]. destruct (mSchedQueue l) as [|e q] eqn:E; [reflexivity|].
    exfalso. apply (Hfull ltac:(discriminate) nothing_to_run l' H). reflexivity.
  - intros H. eexists. now apply Hempty.
Qed.

(** ** Resolving an item twice, or out of its turn *)


(** A loop in the Error state: run() is over, and whatever the rest of the
    callback does the state stays Error. *)
Lemma error_is_final (l : Loop) :
  mComplete l = ASYNC_COMPLETE_ERROR ->
  (forall fuel, run_loop now rand (S fuel) l = Ret l /\ run_finish l = l) /\
  (forall body l'', outcome_state (exec_body now rand body l) = Some l'' ->
                    mComplete l'' = ASYNC_COMPLETE_ERROR).
Proof.
  intros E. split.
  - intros fuel. split.
    + apply run_loop_terminal. rewrite E. discriminate.
    + apply run_finish_terminal. rewrite E. discriminate.
  - intros body l'' H. now apply (advances_exec_body body l l'' H).
Qed.

(** C3 as stated fails: in [late_twice_loop] the item _default is resolved
    twice after a failure of the item a was recorded. The second done()
    finds _default resolved and changes nothing, and run() ends in the Error
    state with the message and the tag of a. *)
Lemma done_twice_after_failure_keeps_first :
  dm_find "_default" (mDones late_twice_mid) =
    Some (mkDone "_default" ASYNC_COMPLETE_SUCCESS 1002040 0 (Some 1%nat)) /\
  done "_default" late_twice_mid = Ret late_twice_mid /\
  exists l',
    run now0 rand0 false 20 late_twice_loop = Ret l' /\
    mComplete l' = ASYNC_COMPLETE_ERROR /\
    mErrorTag l' = "a" /\
    mErrorTag l' <> "_default" /\
    errorMsg l' = "done('a'): Did not resolve in expected order. Expected: 2, actual: 1".
Proof.
  split; [vm_compute; reflexivity|]. split; [vm_compute; reflexivity|].
  eexists. split; [vm_compute; reflexivity|].
  repeat split; discriminate.
Qed.

(** C3, amended. No call on the loop, no entry the loop calls and no run of
    the loop takes an item that has left the pending state back to it.
    done() on such an item returns without throwing and leaves the loop in
    the Error state: run() ends there, whatever the rest of the callback
    does. If no failure was recorded before, the recorded tag is the item's
    and the message is the loop's double-resolution message for it; if one
    was, the loop is unchanged and keeps the first failure. *)
Theorem done_on_resolved_item_fails :
  (forall (c : SchedItem) (l0 l1 : Loop) (u : string),
      outcome_state (call now rand c l0) = Some l1 -> settled u l0 -> settled u l1) /\
  (forall (fuel : nat) (l0 l1 : Loop) (u : string),
      outcome_state (run_loop now rand fuel l0) = Some l1 -> settled u l0 -> settled u l1) /\
  (forall (t : string) (it : DoneItem) (l : Loop),
      dm_find t (mDones l) = Some it ->
      complete it <> ASYNC_COMPLETE_NOT ->
      exists l',
        done t l = Ret l' /\
        mComplete l' = ASYNC_COMPLETE_ERROR /\
        settled t l' /\
        (mComplete l <> ASYNC_COMPLETE_ERROR ->
           l' = recorded already_resolved t l /\
           mErrorTag l' = t /\
           errorMsg l' = failure_msg (colors l) t already_resolved) /\
        (mComplete l = ASYNC_COMPLETE_ERROR -> l' = l) /\
        (forall fuel, run_loop now rand (S fuel) l' = Ret l' /\ run_finish l' = l') /\
        (forall body l'', outcome_state (exec_body now rand body l') = Some l'' ->
                          mComplete l'' = ASYNC_COMPLETE_ERROR)).
Proof.
  split; [|split].
  - intros c l0 l1 u H. apply (advances_call c l0 l1 H).
  - intros fuel l0 l1 u H. apply (advances_run_loop fuel l0 l1 H).
  - intros t it l Hf Hp.
    assert (Hd : done t l = doError already_resolved t true l).
    { unfold done. rewrite Hf.
      destruct (Z.eqb_spec (complete it) 0) as [E|_]; [contradiction | reflexivity]. }
    assert (Hset : forall l', done t l = Ret l' -> settled t l').
    { intros l' H. apply (advances_done t l l'); [now rewrite H|]. now exists it. }
    destruct (Z.eqb_spec (mComplete l) ASYNC_COMPLETE_ERROR) as [E|E].
    + exists l. rewrite Hd, (doError_first_wins _ _ _ _ E) in *.
      split; [reflexivity|]. split; [exact E|]. split; [now apply Hset|].
      split; [intros H; contradiction|]. split; [reflexivity|].
      apply error_is_final, E.
    + destruct (doError_recorded already_resolved t l E) as (Hr & Hc & Ht & Hm).
      { right. rewrite Hf. discriminate. }
      exists (recorded already_resolved t l). rewrite Hd, Hr in *.
      split; [reflexivity|]. split; [exact Hc|]. split; [now apply Hset|].
      split; [intros _; now repeat split|]. split; [intros H; contradiction|].
      apply error_is_final, Hc.
Qed.





End Run.

(** * The statements at work on the scenarios *)



Lemma schedCall_small_delay_divides_by_zero_witness :
  schedCall now0 rand0 [CDoneDefault] 1 50 default_loop = Fault DivisionByZero /\
  schedCall now0 rand0 [CDoneDefault] (-1) (-1) default_loop = Fault DivisionByZero.
Proof.
  split.
  - apply (schedCall_small_delay_divides_by_zero now0 rand0); reflexivity.
  - apply (schedCall_small_delay_divides_by_zero now0 rand0); reflexivity.
Defined.

Lemma done_timeout_fires_witness :
  exists l',
    run_loop now1 rand0 1 timeout_armed = Ret l' /\
    mComplete l' = ASYNC_COMPLETE_ERROR /\
    mErrorTag l' = "x" /\
    errorMsg l' = "done('x'): Timeout".
Proof.
  pose proof (done_timeout_fires now1 rand0 0%nat timeout_armed) as H.
  edestruct H as [Hpending _].
  - vm_compute. reflexivity.
  - reflexivity.
  - unfold due. repeat split; vm_compute; congruence.
  - reflexivity.
  - vm_compute. reflexivity.
  - vm_compute. congruence.
  - destruct (Hpending eq_refl) as (l' & Hrun & _ & Hc & Ht & Hm & _).
    exists l'. repeat split; assumption.
Defined.

(** C2 as stated fails: [default_loop] has the registered item _default,
    whose anchoring would put a timeout entry into the queue, and no call
    was scheduled; run() throws the nothing-to-run error all the same. *)
Lemma run_with_items_only_has_nothing_to_run :
  dm_find "_default" (mDones default_loop) = Some (mkDone "_default" 0 2000 0 None) /\
  mSchedQueue default_loop = [] /\
  List.length (mSchedQueue (armed_loop default_loop)) = 1%nat /\
  run now0 rand0 false 20 default_loop = Throw nothing_to_run default_loop.
Proof. repeat split. Qed.

Lemma run_nothing_to_run_iff_queue_empty_witness :
  run now0 rand0 false 20 default_loop = Throw nothing_to_run default_loop /\
  forall w l', run now0 rand0 false 20 in_order_loop = Throw w l' -> w <> nothing_to_run.
Proof.
  split.
  - exact (proj1 (run_nothing_to_run_iff_queue_empty now0 rand0 false 20 default_loop)
             eq_refl).
  - apply (proj1 (proj2
             (run_nothing_to_run_iff_queue_empty now0 rand0 false 20 in_order_loop))).
    vm_compute. discriminate.
Defined.

Lemma done_on_resolved_item_fails_witness :
  exists l',
    done "_default" resolved_loop = Ret l' /\
    mComplete l' = ASYNC_COMPLETE_ERROR /\
    mErrorTag l' = "_default" /\
    errorMsg l' = "done('_default'): done() already resloved, can't resolve again".
Proof.
  destruct (proj2 (proj2 (done_on_resolved_item_fails now0 rand0))
              "_default" (set_complete ASYNC_COMPLETE_SUCCESS (DoneItem0 "_default"))
              resolved_loop eq_refl)
    as (l' & Hd & Hc & _ & Hrec & _).
  - discriminate.
  - destruct Hrec as (_ & Ht & Hm); [discriminate|].
    exists l'. repeat split; assumption.
Defined.


(** * Further properties of the loop *)

(** ** The scheduling queue *)


(** X1. schedHandler's insertion keeps the queue in timestamp order and is
    stable: the new entry goes behind every entry whose timestamp is not
    greater than its own and before every entry with a greater one, and the
    entries that were there keep their order. *)
Theorem sq_emplace_sorted_stable (e : SchedEntry) (q : SchedQueue) :
  ts_sorted q ->
  ts_sorted (sq_emplace e q) /\
  exists q1 q2,
    q = (q1 ++ q2)%list /\
    sq_emplace e q = (q1 ++ e :: q2)%list /\
    (forall x, In x q1 -> se_ts x <= se_ts e) /\
    (forall x, In x q2 -> se_ts e < se_ts x).
Proof.
  unfold ts_sorted. induction q as [|y q IH]; intros Hs; cbn [sq_emplace].
  - split; [repeat constructor|].
    exists [], []. repeat split; intros x [].
  - apply StronglySorted_inv in Hs. destruct Hs as [Hq Hy].
    destruct (Z.ltb_spec (se_ts e) (se_ts y)) as [Hlt|Hge].
    + split.
      * constructor; [now constructor|].
        constructor; [lia|]. rewrite Forall_forall in *.
        intros x Hx. specialize (Hy x Hx). cbn in Hy. lia.
      * exists [], (y :: q). repeat split; [intros x []|].
        intros x [<-|Hx]; [exact Hlt|].
        rewrite Forall_forall in Hy. specialize (Hy x Hx). cbn in Hy. lia.
    + destruct (IH Hq) as (Hs' & q1 & q2 & E1 & E2 & H1 & H2).
      split.
      * constructor; [exact Hs'|]. rewrite Forall_forall in *.
        intros x Hx. apply sq_emplace_In in Hx. destruct Hx as [->|Hx]; [exact Hge|].
        now apply Hy.
      * exists (y :: q1), q2. cbn. rewrite <- E1, E2. repeat split; [|exact H2].
        intros x [<-|Hx]; [exact Hge | now apply H1].
Qed.

Lemma sq_erase_emplace (e : SchedEntry) (q : SchedQueue) :
  (forall x, In x q -> se_id x <> se_id e) ->
  sq_erase (se_id e) (sq_emplace e q) = Some q.
Proof.
  induction q as [|y q IH]; intros Hne; cbn [sq_emplace].
  - cbn. now rewrite Nat.eqb_refl.
  - destruct (se_ts e <? se_ts y); cbn [sq_erase].
    + now rewrite Nat.eqb_refl.
    + destruct (Nat.eqb_spec (se_id y) (se_id e)) as [E|_].
      * exfalso. apply (Hne y); [now left | exact E].
      * rewrite IH; [reflexivity|]. intros x Hx. apply Hne. now right.
Qed.

(** X2. Cancelling what was just scheduled: when the identities in the queue
    are below the loop's next identity, erasing the iterator that
    schedHandler returned gives back the queue as it was before the call,
    and erasing it a second time is an invalid erase. *)
Theorem schedHandler_then_erase (h : SchedItem) (ts : Z) (l : Loop) :
  (forall x, In x (mSchedQueue l) -> (se_id x < nextId l)%nat) ->
  sq_erase (fst (schedHandler h ts l)) (mSchedQueue (snd (schedHandler h ts l)))
    = Some (mSchedQueue l) /\
  sq_erase (fst (schedHandler h ts l)) (mSchedQueue l) = None.
Proof.
  intros Hfresh.
  destruct (schedHandler_spec h ts l) as (Hh & Hq & _). rewrite Hh, Hq.
  split.
  - apply (sq_erase_emplace (mkEntry (nextId l) ts h)).
    intros x Hx. cbn. specialize (Hfresh x Hx). lia.
  - clear Hh Hq. induction (mSchedQueue l) as [|y q IH]; [reflexivity|].
    cbn [sq_erase]. destruct (Nat.eqb_spec (se_id y) (nextId l)) as [E|_].
    + specialize (Hfresh y (or_introl eq_refl)). lia.
    + rewrite IH; [reflexivity|]. intros x Hx. apply Hfresh. now right.
Qed.







Section More.

Variable now : nat -> Z.
Variable rand : nat -> Z.
Variable stdout_is_tty : bool.














End More.

(** ** The item map and the constructors *)

Lemma ascii_compare_refl (a : ascii) : Ascii.compare a a = Eq.
Proof. unfold Ascii.compare. apply N.compare_refl. Qed.

Lemma ascii_lt_trans (a b c : ascii) :
  Ascii.compare a b = Lt -> Ascii.compare b c = Lt -> Ascii.compare a c = Lt.
Proof. unfold Ascii.compare. rewrite !N.compare_lt_iff. lia. Qed.

Lemma str_compare_refl (s : string) : String.compare s s = Eq.
Proof.
  induction s as [|c s IH]; cbn; [reflexivity|]. now rewrite ascii_compare_refl.
Qed.

Lemma str_lt_trans (a : string) :
  forall b c, String.compare a b = Lt -> String.compare b c = Lt ->
              String.compare a c = Lt.
Proof.
  induction a as [|x a IH]; intros [|y b] [|z c]; cbn; try discriminate; try reflexivity.
  destruct (Ascii.compare x y) eqn:Exy; try discriminate.
  - apply Ascii.compare_eq_iff in Exy. subst y.
    destruct (Ascii.compare x z) eqn:Exz; try discriminate; try reflexivity.
    apply IH.
  - intros _. destruct (Ascii.compare y z) eqn:Eyz; try discriminate.
    + apply Ascii.compare_eq_iff in Eyz. subst z. now rewrite Exy.
    + intros _. now rewrite (ascii_lt_trans x y z).
Qed.

Lemma str_lt_neq (a b : string) : String.compare a b = Lt -> a <> b.
Proof. intros H ->. rewrite str_compare_refl in H. discriminate H. Qed.

Lemma dm_insert_In (d : DoneItem) (m r : DoneMap) (y : DoneItem) :
  dm_insert d m = Some r -> (In y r <-> y = d \/ In y m).
Proof.
  revert r. induction m as [|x m IH]; cbn [dm_insert]; intros r H.
  - injection H as <-. cbn. intuition congruence.
  - destruct (String.compare (tag d) (tag x)); try discriminate.
    + injection H as <-. cbn. intuition congruence.
    + destruct (dm_insert d m) as [r'|]; [|discriminate]. injection H as <-.
      cbn. rewrite (IH r' eq_refl). intuition congruence.
Qed.

Lemma dm_find_insert (d : DoneItem) (m r : DoneMap) (u : string) :
  dm_insert d m = Some r ->
  dm_find u r = if (u =? tag d)%string then Some d else dm_find u m.
Proof.
  revert r. induction m as [|x m IH]; cbn [dm_insert]; intros r H.
  - injection H as <-. cbn. rewrite (String.eqb_sym u). now destruct (tag d =? u)%string.
  - destruct (String.compare (tag d) (tag x)) eqn:Ec; try discriminate.
    + injection H as <-. cbn [dm_find]. rewrite (String.eqb_sym u).
      now destruct (tag d =? u)%string.
    + destruct (dm_insert d m) as [r'|]; [|discriminate]. injection H as <-.
      cbn [dm_find]. rewrite (IH r' eq_refl).
      destruct (String.eqb_spec (tag x) u) as [E|_]; [|reflexivity].
      destruct (String.eqb_spec u (tag d)) as [E'|_]; [|reflexivity].
      exfalso. rewrite <- E', <- E, str_compare_refl in Ec. discriminate Ec.
Qed.

Lemma dm_insert_sorted (d : DoneItem) (m r : DoneMap) :
  tags_sorted m -> dm_insert d m = Some r -> tags_sorted r.
Proof.
  unfold tags_sorted. revert r. induction m as [|x m IH]; cbn [dm_insert]; intros r Hs H.
  - injection H as <-. repeat constructor.
  - pose proof Hs as Hs0. apply StronglySorted_inv in Hs. destruct Hs as [Hm Hx].
    destruct (String.compare (tag d) (tag x)) eqn:Ec; try discriminate.
    + injection H as <-. constructor; [exact Hs0|].
      constructor; [exact Ec|]. rewrite Forall_forall in *.
      intros y Hy. apply (str_lt_trans _ (tag x)); [exact Ec | now apply Hx].
    + destruct (dm_insert d m) as [r'|] eqn:Hr; [|discriminate]. injection H as <-.
      constructor; [now apply IH|]. rewrite Forall_forall in *.
      intros y Hy. apply (dm_insert_In d m r' y Hr) in Hy. destruct Hy as [->|Hy].
      * rewrite String.compare_antisym, Ec. reflexivity.
      * now apply Hx.
Qed.

(** In a sorted map the insertion fails exactly on a tag that is there. *)
Lemma dm_insert_none_iff (d : DoneItem) (m : DoneMap) :
  tags_sorted m -> (dm_insert d m = None <-> dm_find (tag d) m <> None).
Proof.
  unfold tags_sorted. induction m as [|x m IH]; cbn [dm_insert dm_find]; intros Hs.
  - split; [discriminate | intros H; now contradiction H].
  - apply StronglySorted_inv in Hs. destruct Hs as [Hm Hx].
    destruct (String.compare (tag d) (tag x)) eqn:Ec.
    + apply String.compare_eq_iff in Ec. rewrite Ec, String.eqb_refl.
      split; [discriminate | reflexivity].
    + destruct (String.eqb_spec (tag x) (tag d)) as [E|_].
      { rewrite E, str_compare_refl in Ec. discriminate Ec. }
      split; [discriminate|]. intros Hf. exfalso.
      destruct (dm_find (tag d) m) as [y|] eqn:Hy; [|now apply Hf].
      rewrite Forall_forall in Hx. specialize (Hx y (dm_find_In _ _ _ Hy)). cbn in Hx.
      rewrite (dm_find_tag _ _ _ Hy) in Hx.
      pose proof (str_lt_trans _ _ _ Ec Hx) as Hc.
      rewrite str_compare_refl in Hc. discriminate Hc.
    + destruct (String.eqb_spec (tag x) (tag d)) as [E|_].
      { rewrite E, str_compare_refl in Ec. discriminate Ec. }
      destruct (dm_insert d m) as [r|]; rewrite <- (IH Hm);
        (split; [discriminate | congruence]) || (split; reflexivity).
Qed.

Lemma addDoneToMap_frame (item : DoneItem) (l : Loop) :
  let l1 := if (tag item =? "_default")%string then with_mHasDefaultDone true l else l in
  mDones l1 = mDones l /\ defaultDoneTimeout l1 = defaultDoneTimeout l /\
  mSchedQueue l1 = mSchedQueue l /\ mComplete l1 = mComplete l /\
  errorMsg l1 = errorMsg l.
Proof. cbv zeta. destruct (tag item =? "_default")%string; repeat split. Qed.

Lemma stored_tag (timeout : Z) (item : DoneItem) : tag (stored timeout item) = tag item.
Proof. unfold stored. now destruct (deadline item <? 0). Qed.

(** addDoneToMap of a tag that the map, in tag order, does not hold. *)
Lemma addDoneToMap_new (item : DoneItem) (l : Loop) :
  tags_sorted (mDones l) ->
  dm_find (tag item) (mDones l) = None ->
  exists l',
    addDoneToMap item l = Ret l' /\
    dm_find (tag item) (mDones l') = Some (stored (defaultDoneTimeout l) item) /\
    (forall u, u <> tag item -> dm_find u (mDones l') = dm_find u (mDones l)) /\
    tags_sorted (mDones l') /\
    mSchedQueue l' = mSchedQueue l /\ mComplete l' = mComplete l /\
    errorMsg l' = errorMsg l.
Proof.
  intros Hs Hnone. unfold addDoneToMap.
  destruct (addDoneToMap_frame item l) as (Hd & Ht & Hq & Hc & Hm). rewrite Hd, Ht.
  fold (stored (defaultDoneTimeout l) item).
  pose proof (stored_tag (defaultDoneTimeout l) item) as Htag.
  pose proof (dm_insert_none_iff (stored (defaultDoneTimeout l) item) (mDones l) Hs) as Hiff.
  rewrite Htag in Hiff.
  destruct (dm_insert (stored (defaultDoneTimeout l) item) (mDones l)) as [r|] eqn:Hr.
  2: { exfalso. apply (proj1 Hiff eq_refl). exact Hnone. }
  eexists. split; [reflexivity|]. cbn [mDones with_mDones mSchedQueue mComplete errorMsg].
  split; [|split; [|split; [|auto]]].
  - rewrite (dm_find_insert _ _ _ _ Hr), Htag. now rewrite String.eqb_refl.
  - intros u Hne. rewrite (dm_find_insert _ _ _ _ Hr), Htag.
    destruct (String.eqb_spec u (tag item)); [contradiction | reflexivity].
  - now apply (dm_insert_sorted _ _ _ Hs Hr).
Qed.

(** addDoneToMap of a tag that the map, in tag order, holds. *)
Lemma addDoneToMap_duplicate (item : DoneItem) (l : Loop) :
  tags_sorted (mDones l) ->
  dm_find (tag item) (mDones l) <> None ->
  exists what l',
    addDoneToMap item l = Throw what l' /\
    errorMsg l' = what /\ mDones l' = mDones l /\ mComplete l' = mComplete l.
Proof.
  intros Hs Hsome. unfold addDoneToMap.
  destruct (addDoneToMap_frame item l) as (Hd & Ht & Hq & Hc & Hm). rewrite Hd, Ht.
  fold (stored (defaultDoneTimeout l) item).
  pose proof (dm_insert_none_iff (stored (defaultDoneTimeout l) item) (mDones l) Hs) as Hiff.
  rewrite (stored_tag (defaultDoneTimeout l) item) in Hiff.
  rewrite (proj2 Hiff Hsome). unfold usageError.
  eexists _, _. split; [reflexivity|]. cbn. auto.
Qed.

(** X5. addDoneToMap on a loop whose item map is in order. A tag that is
    not registered yet is registered: the item is found under it, with the
    loop's default timeout as deadline when its own is negative and with no
    timeout entry yet; the other tags, the queue and the state are as
    before and the map stays in order. A tag that is registered makes the
    call throw, with the message recorded and the map unchanged. *)
Theorem addDoneToMap_registers_once (item : DoneItem) (l : Loop) :
  tags_sorted (mDones l) ->
  (dm_find (tag item) (mDones l) = None ->
     exists l',
       addDoneToMap item l = Ret l' /\
       dm_find (tag item) (mDones l') = Some (stored (defaultDoneTimeout l) item) /\
       (forall u, u <> tag item -> dm_find u (mDones l') = dm_find u (mDones l)) /\
       tags_sorted (mDones l') /\
       mSchedQueue l' = mSchedQueue l /\ mComplete l' = mComplete l /\
       errorMsg l' = errorMsg l) /\
  (dm_find (tag item) (mDones l) <> None ->
     exists what l',
       addDoneToMap item l = Throw what l' /\
       errorMsg l' = what /\ mDones l' = mDones l /\ mComplete l' = mComplete l).
Proof.
  intros Hs. split.
  - intros Hnone. now apply addDoneToMap_new.
  - intros Hsome. now apply addDoneToMap_duplicate.
Qed.


(** The loop of the constructor that takes a list of items. *)
Lemma addDonesToMap_spec (items : list DoneItem) :
  forall l, tags_sorted (mDones l) ->
  ((exists l', addDonesToMap items l = Ret l') <->
     NoDup (map tag items) /\
     forall item, In item items -> dm_find (tag item) (mDones l) = None) /\
  (forall l', addDonesToMap items l = Ret l' ->
     tags_sorted (mDones l') /\
     (forall item, In item items ->
        dm_find (tag item) (mDones l') = Some (stored (defaultDoneTimeout l) item)) /\
     (forall u, ~ In u (map tag items) -> dm_find u (mDones l') = dm_find u (mDones l)) /\
     mSchedQueue l' = mSchedQueue l /\ mComplete l' = mComplete l /\
     errorMsg l' = errorMsg l /\ mLastOrderedDoneNo l' = mLastOrderedDoneNo l /\
     resolved l' = resolved l /\ nextId l' = nextId l /\
     defaultDoneTimeout l' = defaultDoneTimeout l).
Proof.
  induction items as [|item rest IH]; intros l Hs; cbn [addDonesToMap map].
  - split.
    + split; [intros _; split; [constructor | intros item []] | intros _; eauto].
    + intros l' H. injection H as <-. repeat split; auto. intros item [].
  - pose proof (addDoneToMap_new item l Hs) as Hnew.
    pose proof (addDoneToMap_duplicate item l Hs) as Hdup.
    assert (Hframe : forall l1, addDoneToMap item l = Ret l1 ->
              mLastOrderedDoneNo l1 = mLastOrderedDoneNo l /\ resolved l1 = resolved l /\
              nextId l1 = nextId l /\ defaultDoneTimeout l1 = defaultDoneTimeout l).
    { unfold addDoneToMap. intros l1.
      destruct (dm_insert _ _); [|discriminate].
      intros H. injection H as <-.
      destruct (tag item =? "_default")%string; repeat split. }
    destruct (dm_find (tag item) (mDones l)) as [d0|] eqn:Hf.
    + destruct Hdup as (what & lx & Hthrow & _); [discriminate|]. rewrite Hthrow.
      cbn [bind]. split; [|discriminate]. split.
      * intros [l' H]. discriminate H.
      * intros [_ Hall]. specialize (Hall item (or_introl eq_refl)). congruence.
    + destruct (Hnew eq_refl) as (l1 & Hret & Hfind & Hother & Hs1 & Hq & Hc & Hm).
      rewrite Hret. cbn [bind].
      destruct (Hframe l1 Hret) as (Hn1 & Hr1 & Hi1 & Ht1).
      destruct (IH l1 Hs1) as [Hiff Hspec].
      split.
      * rewrite Hiff. split.
        -- intros [Hnd Hall]. split.
           ++ constructor; [|exact Hnd]. intros Hin. apply in_map_iff in Hin.
              destruct Hin as (x & Hx & Hin). specialize (Hall x Hin).
              rewrite Hx, Hfind in Hall. discriminate Hall.
           ++ intros x [<-|Hx]; [exact Hf|]. specialize (Hall x Hx).
              destruct (String.eqb_spec (tag x) (tag item)) as [E|E].
              ** rewrite E, Hfind in Hall. discriminate Hall.
              ** now rewrite (Hother _ E) in Hall.
        -- intros [Hnd Hall]. inversion Hnd as [|? ? Hni Hnd']; subst. split; [exact Hnd'|].
           intros x Hx. rewrite Hother; [apply Hall; now right|].
           intros E. apply Hni. rewrite <- E. now apply in_map.
      * intros l' H.
        assert (Hok : NoDup (map tag rest) /\
                      forall x, In x rest -> dm_find (tag x) (mDones l1) = None)
          by (apply Hiff; eauto).
        destruct (Hspec l' H) as (Hs' & Hfind' & Hother' & Hq' & Hc' & Hm' & Hn' & Hr' & Hi' & Ht').
        rewrite Ht1 in Hfind'.
        split; [exact Hs'|]. split; [|split].
        -- intros x [<-|Hx]; [|now apply Hfind'].
           rewrite Hother'; [exact Hfind|].
           intros Hin. apply in_map_iff in Hin. destruct Hin as (y & Hy & Hin).
           destruct Hok as [_ Hall]. specialize (Hall y Hin).
           rewrite Hy, Hfind in Hall. discriminate Hall.
        -- intros u Hni. rewrite Hother'; [|intros Hin; apply Hni; now right].
           apply Hother. intros E. apply Hni. left. now symmetry.
        -- repeat split; congruence.
Qed.

(** What the constructor's loop holds comes from the list. *)
Lemma constructed_found (items : list DoneItem) (timeout : Z) (l : Loop) :
  EventLoop_with items timeout = Ret l ->
  (forall item, In item items ->
     dm_find (tag item) (mDones l) = Some (stored timeout item)) /\
  (forall t d, dm_find t (mDones l) = Some d ->
     exists item, In item items /\ tag item = t /\ d = stored timeout item).
Proof.
  unfold EventLoop_with. intros H.
  destruct (addDonesToMap_spec items (init_members timeout)) as [_ Hspec];
    [constructor|].
  destruct (Hspec l H) as (_ & Hfind & Hother & _).
  cbn in Hfind, Hother. split; [exact Hfind|].
  intros t d Hf.
  destruct (in_dec string_dec t (map tag items)) as [Hin|Hni].
  - apply in_map_iff in Hin. destruct Hin as (item & Ht & Hin).
    exists item. split; [exact Hin|]. split; [exact Ht|].
    specialize (Hfind item Hin). rewrite Ht in Hfind. congruence.
  - rewrite (Hother t Hni) in Hf. discriminate Hf.
Qed.

(** X6. The constructor that takes a list of items succeeds exactly when the
    tags of the list are pairwise distinct. The loop it builds has every
    item of the list under its tag, as addDoneToMap stores it, and nothing
    else; its map is in tag order, its queue is empty and it is not
    complete. *)
Theorem EventLoop_with_distinct_tags (items : list DoneItem) (timeout : Z) :
  ((exists l, EventLoop_with items timeout = Ret l) <-> NoDup (map tag items)) /\
  (forall l, EventLoop_with items timeout = Ret l ->
     tags_sorted (mDones l) /\
     (forall item, In item items ->
        dm_find (tag item) (mDones l) = Some (stored timeout item)) /\
     (forall t d, dm_find t (mDones l) = Some d ->
        exists item, In item items /\ tag item = t /\ d = stored timeout item) /\
     mSchedQueue l = [] /\ mComplete l = ASYNC_COMPLETE_NOT /\
     errorMsg l = EmptyString).
Proof.
  assert (Hs : tags_sorted (mDones (init_members timeout))) by constructor.
  destruct (addDonesToMap_spec items (init_members timeout) Hs) as [Hiff Hspec].
  split.
  - unfold EventLoop_with. rewrite Hiff. cbn.
    split; [now intros [H _] | intros H; split; [exact H | reflexivity]].
  - intros l H. destruct (constructed_found items timeout l H) as [Hfind Hfrom].
    unfold EventLoop_with in H.
    destruct (Hspec l H) as (Hs' & _ & _ & Hq & Hc & Hm & _).
    cbn in Hq, Hc, Hm. repeat split; assumption.
Qed.

Lemma dm_find_sorted_In (m : DoneMap) (y : DoneItem) :
  tags_sorted m -> In y m -> dm_find (tag y) m = Some y.
Proof.
  unfold tags_sorted. induction m as [|x m IH]; intros Hs Hin; [destruct Hin|].
  apply StronglySorted_inv in Hs. destruct Hs as [Hm Hx]. cbn [dm_find].
  destruct Hin as [->|Hin]; [now rewrite String.eqb_refl|].
  rewrite Forall_forall in Hx. specialize (Hx y Hin). cbn in Hx.
  destruct (String.eqb_spec (tag x) (tag y)) as [E|_]; [|now apply IH].
  rewrite E, str_compare_refl in Hx. discriminate Hx.
Qed.

Lemma nodup_distinct_ids (q : SchedQueue) :
  NoDup (map se_id q) -> distinct_ids q = true.
Proof.
  induction q as [|e q IH]; cbn; [reflexivity|].
  intros Hnd. inversion Hnd as [|? ? Hni Hq]; subst.
  rewrite (IH Hq), andb_true_r. apply negb_true_iff.
  destruct (existsb _ q) eqn:Hex; [|reflexivity].
  exfalso. apply existsb_exists in Hex. destruct Hex as (x & Hx & E).
  apply Nat.eqb_eq in E. apply Hni. rewrite <- E. now apply in_map.
Qed.

Section Ready.

Variable now : nat -> Z.
Variable rand : nat -> Z.

(** What schedCall does to the loop when it returns: it adds one entry for
    [func] and leaves the items, the state and the resolution counter. *)
Lemma schedCall_shape (func : list Cmd) (after aJitterPct : Z) (l l' : Loop) :
  schedCall now rand func after aJitterPct l = Ret l' ->
  exists ts l0, same_frame l l0 /\ l' = snd (schedHandler (UserCall func) ts l0).
Proof.
  unfold schedCall, add_jitter, bind, getTimeMs, c_rand.
  repeat match goal with
         | |- context [if ?c then _ else _] => destruct c
         | |- context [match chk_int ?z with _ => _ end] => destruct (chk_int z)
         | |- context [match chk_ts ?z with _ => _ end] => destruct (chk_ts z)
         end.
  all: cbv beta iota zeta; intros H; try discriminate H; injection H as <-.
  all: match goal with
       | |- exists _ _, _ /\ (if ?ts <? _
                              then setWakeupTs _ (with_nextId _ (with_mSchedQueue _ ?l0))
                              else _) = _ =>
           exists ts, l0; split; [repeat split | reflexivity]
       end.
Qed.

(** X7. A loop that the constructor built from pending items is ready for
    run(), and a ready loop is still ready, with the same items, after any
    schedCall that returns: so every loop set up the usual way meets what
    the statements about run() ask for. *)
Theorem constructed_loop_is_ready :
  (forall items timeout l,
      EventLoop_with items timeout = Ret l ->
      (forall item, In item items -> complete item = 0) ->
      readyb l = true) /\
  (forall func after aJitterPct l l',
      readyb l = true ->
      schedCall now rand func after aJitterPct l = Ret l' ->
      readyb l' = true /\ mDones l' = mDones l /\
      List.length (mSchedQueue l') = S (List.length (mSchedQueue l))).
Proof.
  split.
  - intros items timeout l H Hpend.
    destruct (constructed_found items timeout l H) as [_ Hfrom].
    destruct (addDonesToMap_spec items (init_members timeout)) as [_ Hspec2];
      [constructor|].
    destruct (Hspec2 l H) as (Hs & _ & _ & Hq & Hc & Hm & Hn & Hr & _).
    cbn in Hq, Hc, Hm, Hn, Hr. unfold readyb. rewrite Hc, Hm, Hn, Hr, Hq. cbn.
    rewrite !andb_true_r. apply forallb_forall. intros y Hy.
    destruct (Hfrom (tag y) y (dm_find_sorted_In _ y Hs Hy)) as (item & Hin & _ & ->).
    unfold stored. destruct (deadline item <? 0); cbn; rewrite (Hpend item Hin);
      reflexivity.
  - intros func after aJitterPct l l' Hready H.
    destruct (schedCall_shape func after aJitterPct l l' H)
      as (ts & l0 & (Hd & Hn & Hr & Hc & Hm & Hq & Hi) & ->).
    destruct (schedHandler_spec (UserCall func) ts l0)
      as (_ & Hq' & Hi' & Hd' & Hc' & Hm' & Hn' & Hr').
    pose proof (readyb_Fresh l Hready) as [F1 F2 F3 F4 _ F6 F7].
    assert (Hall : forallb (fun d => complete d =? 0) (mDones l) = true).
    { unfold readyb in Hready.
      repeat (apply andb_true_iff in Hready; destruct Hready as [Hready ?]).
      assumption. }
    set (l' := snd (schedHandler (UserCall func) ts l0)) in *.
    assert (Q : mSchedQueue l' =
                sq_emplace (mkEntry (nextId l) ts (UserCall func)) (mSchedQueue l))
      by (rewrite Hq', Hq, Hi; reflexivity).
    assert (I : nextId l' = S (nextId l)) by (rewrite Hi', Hi; reflexivity).
    assert (D : mDones l' = mDones l) by (rewrite Hd', Hd; reflexivity).
    assert (C : mComplete l' = 0) by (rewrite Hc', Hc; exact F1).
    assert (M : errorMsg l' = EmptyString) by (rewrite Hm', Hm; exact F2).
    assert (N : mLastOrderedDoneNo l' = 0) by (rewrite Hn', Hn; exact F3).
    assert (R : resolved l' = []) by (rewrite Hr', Hr; exact F4).
    split; [|split].
    + unfold readyb. rewrite C, M, N, R, D, Hall, Q, I. cbn.
      apply andb_true_iff. split.
      * apply nodup_distinct_ids, sq_emplace_nodup; [exact F6|].
        intros x Hx. cbn. specialize (F7 x Hx). lia.
      * apply forallb_forall. intros x Hx. apply Nat.leb_le.
        apply sq_emplace_In in Hx. destruct Hx as [->|Hx];
          [cbn; lia | specialize (F7 x Hx); lia].
    + exact D.
    + rewrite Q. clear. induction (mSchedQueue l) as [|y q IH]; [reflexivity|].
      cbn [sq_emplace]. destruct (_ <? _); cbn; [reflexivity | now rewrite IH].
Qed.

End Ready.

(** ** done() and error() *)

Lemma sq_erase_gone (h : nat) (q q' : SchedQueue) :
  NoDup (map se_id q) -> sq_erase h q = Some q' ->
  forall e, In e q' -> se_id e <> h.
Proof.
  revert q'. induction q as [|y q IH]; cbn [sq_erase]; intros q' Hnd H; [discriminate|].
  inversion Hnd as [|? ? Hy Hq]; subst.
  destruct (Nat.eqb_spec (se_id y) h) as [E|E].
  - injection H as <-. intros e He Heq. apply Hy. rewrite E, <- Heq. now apply in_map.
  - destruct (sq_erase h q) as [r|] eqn:Hr; [|discriminate]. injection H as <-.
    intros e [<-|He]; [exact E | now apply (IH r)].
Qed.

(** X8. done() on a pending item in its turn (an item without order, or an
    ordered item whose order is the next position): the item becomes
    resolved and its timeout entry, and only that entry, leaves the queue,
    so the timeout can no longer fire; the other items, the state of the
    loop, its message and its tag are untouched, and the position counter
    advances for an ordered item only. *)
Theorem done_in_turn_resolves
    (t : string) (it : DoneItem) (h : nat) (q : SchedQueue) (l : Loop) :
  dm_find t (mDones l) = Some it ->
  complete it = ASYNC_COMPLETE_NOT ->
  schedItem it = Some h ->
  sq_erase h (mSchedQueue l) = Some q ->
  NoDup (map se_id (mSchedQueue l)) ->
  order it = 0 \/ (order it = mLastOrderedDoneNo l + 1 /\ INT_MIN <= order it <= INT_MAX) ->
  exists l',
    done t l = Ret l' /\
    dm_find t (mDones l') = Some (set_complete ASYNC_COMPLETE_SUCCESS it) /\
    (forall u, u <> t -> dm_find u (mDones l') = dm_find u (mDones l)) /\
    mSchedQueue l' = q /\
    (forall e, In e q -> se_id e <> h) /\
    (forall e, In e (mSchedQueue l) -> se_id e <> h -> In e q) /\
    mComplete l' = mComplete l /\ errorMsg l' = errorMsg l /\
    mErrorTag l' = mErrorTag l /\
    mLastOrderedDoneNo l' =
      (if order it =? 0 then mLastOrderedDoneNo l else mLastOrderedDoneNo l + 1).
Proof.
  intros Hf Hp Hh Hq Hnd Hturn.
  assert (Hfind : forall X, mDones X = mDones l ->
            dm_find t (dm_update t (set_complete ASYNC_COMPLETE_SUCCESS) (mDones X)) =
              Some (set_complete ASYNC_COMPLETE_SUCCESS it) /\
            forall u, u <> t ->
              dm_find u (dm_update t (set_complete ASYNC_COMPLETE_SUCCESS) (mDones X)) =
                dm_find u (mDones l)).
  { intros X ->. split.
    - rewrite dm_find_set_complete, String.eqb_refl, Hf. reflexivity.
    - intros u Hne. rewrite dm_find_set_complete.
      destruct (String.eqb_spec u t); [contradiction | reflexivity]. }
  unfold done. rewrite Hf, Hp, Hh, Hq.
  change (negb (ASYNC_COMPLETE_NOT =? 0)) with false. cbv iota.
  destruct (Z.eqb_spec (order it) 0) as [E0|E0].
  - eexists. split; [reflexivity|]. cbn.
    destruct (Hfind (with_mSchedQueue q l) eq_refl) as [H1 H2].
    split; [exact H1|]. split; [exact H2|]. split; [reflexivity|].
    split; [now apply (sq_erase_gone h (mSchedQueue l))|].
    split; [intros e He Hne; now apply (sq_erase_other h (mSchedQueue l))|].
    repeat split.
  - destruct Hturn as [H0|[Hnext Hrange]]; [contradiction|].
    cbn [mLastOrderedDoneNo with_mSchedQueue].
    rewrite <- Hnext, (chk_int_in _ Hrange), Z.eqb_refl. cbn [negb].
    eexists. split; [reflexivity|]. cbn.
    destruct (Hfind (with_mSchedQueue q l) eq_refl) as [H1 H2].
    split; [exact H1|]. split; [exact H2|]. split; [reflexivity|].
    split; [now apply (sq_erase_gone h (mSchedQueue l))|].
    split; [intros e He Hne; now apply (sq_erase_other h (mSchedQueue l))|].
    repeat split.
Qed.

(** X9. done() before run(): in a loop as the constructor built it, and in
    any loop with the same items (so after any number of schedCalls), the
    items have no timeout entry yet, and done() on a pending one erases an
    iterator that points nowhere. *)
Theorem done_before_run_is_undefined
    (items : list DoneItem) (timeout : Z) (l : Loop) (item : DoneItem) :
  EventLoop_with items timeout = Ret l ->
  In item items ->
  complete item = ASYNC_COMPLETE_NOT ->
  forall l', mDones l' = mDones l -> done (tag item) l' = Fault InvalidIterator.
Proof.
  intros H Hin Hp l' Hd.
  destruct (constructed_found items timeout l H) as [Hfind _].
  unfold done. rewrite Hd, (Hfind item Hin).
  unfold stored. destruct (deadline item <? 0); cbn; rewrite Hp; reflexivity.
Qed.

(** X10. error(msg) is error("_default", msg). On a loop that is already in
    the Error state error(tag, msg) with a tag that is not empty returns
    without a throw and changes nothing. Otherwise it throws: with the
    item's tagged message, the loop in the Error state and the item failed,
    when the tag is registered; with a usage error, the loop in the Error
    state all the same but its tag and items unchanged, when it is not. An
    empty tag is a usage error that leaves the state as it is. *)
Theorem error_throws_unless_failed (msg : string) (l : Loop) :
  error msg l = error_tag "_default" msg l /\
  (forall t, str_empty t = true ->
     exists what, error_tag t msg l = Throw what (with_errorMsg what l)) /\
  (mComplete l = ASYNC_COMPLETE_ERROR ->
     forall t, str_empty t = false -> error_tag t msg l = Ret l) /\
  (mComplete l <> ASYNC_COMPLETE_ERROR ->
     forall t, str_empty t = false ->
     exists what l',
       error_tag t msg l = Throw what l' /\
       mComplete l' = ASYNC_COMPLETE_ERROR /\ errorMsg l' = what /\
       (forall it, dm_find t (mDones l) = Some it ->
          what = tagged_msg (colors l) t msg /\ mErrorTag l' = t /\
          dm_find t (mDones l') = Some (set_complete ASYNC_COMPLETE_ERROR it)) /\
       (dm_find t (mDones l) = None ->
          what = "error() called with unknown tag: " ++ t /\
          mErrorTag l' = mErrorTag l /\ mDones l' = mDones l)).
Proof.
  split; [reflexivity|]. split; [|split].
  - intros t Ht. unfold error_tag, usageError. rewrite Ht. eauto.
  - intros E t Ht. unfold error_tag. rewrite Ht. now apply doError_first_wins.
  - intros E t Ht. unfold error_tag. rewrite Ht.
    destruct (dm_find t (mDones l)) as [it|] eqn:Hf.
    + rewrite (doError_tagged msg t false l it E Ht Hf).
      eexists _, _. split; [reflexivity|]. split; [reflexivity|]. split; [reflexivity|].
      split; [|discriminate].
      intros it' Hit. injection Hit as <-. split; [reflexivity|]. split; [reflexivity|].
      cbn. rewrite dm_find_set_complete, String.eqb_refl, Hf. reflexivity.
    + unfold doError, usageError.
      destruct (Z.eqb_spec (mComplete l) ASYNC_COMPLETE_ERROR) as [E'|_]; [contradiction|].
      rewrite Ht. cbn. rewrite Hf.
      eexists _, _. split; [reflexivity|]. split; [reflexivity|]. split; [reflexivity|].
      split; [discriminate|]. intros _. repeat split.
Qed.

(** ** schedCall with and without jitter *)

Section Jitter.

Variable now : nat -> Z.
Variable rand : nat -> Z.

(** The jitter computation when the magnitude [j] is at least 1. *)
Lemma add_jitter_bounds (a pct ts : Z) (l : Loop) :
  0 <= a -> 0 < pct -> a * pct <= INT_MAX ->
  1 <= Z.quot (a * pct) 100 ->
  0 <= rand (randCalls l) ->
  TS_MIN <= ts - Z.quot (a * pct) 100 -> ts + Z.quot (a * pct) 100 <= TS_MAX ->
  add_jitter rand a pct ts l =
    Ret (ts + (Z.rem (rand (randCalls l)) (2 * Z.quot (a * pct) 100)
               - Z.quot (a * pct) 100),
         with_randCalls (S (randCalls l)) l) /\
  0 <= Z.rem (rand (randCalls l)) (2 * Z.quot (a * pct) 100)
    < 2 * Z.quot (a * pct) 100.
Proof.
  intros Ha Hpct Hmax Hj Hr Hlo Hhi.
  set (j := Z.quot (a * pct) 100) in *.
  assert (Hjmax : j <= a * pct).
  { subst j. rewrite Z.quot_div_nonneg by nia. apply Z.div_le_upper_bound; nia. }
  assert (Hj100 : 100 * j <= a * pct).
  { subst j. rewrite Z.quot_div_nonneg by nia. apply Z.mul_div_le. lia. }
  assert (Hrem : 0 <= Z.rem (rand (randCalls l)) (2 * j) < 2 * j)
    by (apply Z.rem_bound_pos; lia).
  split; [|exact Hrem].
  unfold add_jitter. destruct (Z.eqb_spec pct 0) as [E|_]; [lia|]. cbn [negb].
  rewrite (chk_int_in (a * pct)) by (unfold INT_MIN, INT_MAX in *; nia).
  fold j. cbn [c_rand].
  rewrite (chk_int_in (2 * j)) by (unfold INT_MIN, INT_MAX in *; lia).
  destruct (Z.eqb_spec (2 * j) 0) as [E|_]; [lia|].
  rewrite (chk_int_in (Z.rem _ _ - j)) by (unfold INT_MIN, INT_MAX in *; lia).
  rewrite (chk_ts_in (ts + _)) by lia.
  reflexivity.
Qed.

(** X11. schedCall with a positive jitter percentage and a jitter magnitude
    j = (|delay| * percentage) / 100 of at least 1, when rand() returns a
    value that is not negative and nothing overflows: the call is queued at
    base + |delay| + (rand() % (2*j)) - j, which lies between
    base + |delay| - j and base + |delay| + j - 1, where base is the current
    time for a delay that is not negative and the chain's cursor for a
    negative one. rand() is called once, and only a chained call moves the
    cursor, to that timestamp. *)
Theorem schedCall_jitter_within_bounds
    (func : list Cmd) (after aJitterPct : Z) (l : Loop) :
  0 < effective_jitter aJitterPct l ->
  1 <= jitter_of after (effective_jitter aJitterPct l) ->
  INT_MIN < after ->
  Z.abs after * effective_jitter aJitterPct l <= INT_MAX ->
  0 <= rand (randCalls l) ->
  TS_MIN <= sched_base now after l + Z.abs after
            - jitter_of after (effective_jitter aJitterPct l) ->
  sched_base now after l + Z.abs after
    + jitter_of after (effective_jitter aJitterPct l) <= TS_MAX ->
  exists l' ts,
    schedCall now rand func after aJitterPct l = Ret l' /\
    ts = sched_base now after l + Z.abs after
         + (Z.rem (rand (randCalls l))
              (2 * jitter_of after (effective_jitter aJitterPct l))
            - jitter_of after (effective_jitter aJitterPct l)) /\
    sched_base now after l + Z.abs after
      - jitter_of after (effective_jitter aJitterPct l) <= ts /\
    ts < sched_base now after l + Z.abs after
         + jitter_of after (effective_jitter aJitterPct l) /\
    mSchedQueue l' =
      sq_emplace (mkEntry (nextId l) ts (UserCall func)) (mSchedQueue l) /\
    randCalls l' = S (randCalls l) /\
    mLastOrderTs l' = (if after <? 0 then ts else mLastOrderTs l).
Proof.
  intros Hpct Hj Hmin Hmax Hr Hlo Hhi.
  unfold jitter_of in *. set (pct := effective_jitter aJitterPct l) in *.
  unfold schedCall. fold (effective_jitter aJitterPct l). fold pct.
  unfold sched_base in *.
  destruct (Z.ltb_spec after 0) as [Hneg|Hnn].
  - rewrite Z.abs_neq in * by lia.
    rewrite (chk_int_in (- after)) by (unfold INT_MIN, INT_MAX in *; lia).
    set (l1 := if mLastOrderTs l =? 0
               then let (t, l') := getTimeMs now l in with_mLastOrderTs t l'
               else l).
    assert (Hl1 : mLastOrderTs l1 = chain_start now l /\ randCalls l1 = randCalls l /\
                  mSchedQueue l1 = mSchedQueue l /\ nextId l1 = nextId l /\
                  mNextEventTs l1 = mNextEventTs l).
    { subst l1. unfold chain_start. destruct (mLastOrderTs l =? 0); repeat split. }
    destruct Hl1 as (Hc1 & Hr1 & Hq1 & Hi1 & Hn1). rewrite Hc1.
    rewrite (chk_ts_in (chain_start now l + - after)) by lia.
    assert (Hr' : 0 <= rand (randCalls l1)) by (rewrite Hr1; exact Hr).
    destruct (add_jitter_bounds (- after) pct (chain_start now l + - after) l1
                ltac:(lia) Hpct Hmax Hj Hr' Hlo Hhi) as [Hadd Hrem].
    rewrite Hadd. cbn [bind]. rewrite Hr1 in Hrem |- *.
    eexists _, _. split; [reflexivity|]. split; [reflexivity|].
    split; [lia|]. split; [lia|].
    unfold schedHandler, setWakeupTs. cbn.
    destruct (_ <? _); cbn; rewrite ?Hq1, ?Hi1, ?Hr1; repeat split.
  - rewrite Z.abs_eq in * by lia. cbn [getTimeMs].
    rewrite (chk_ts_in (now (clockReads l) + after)) by lia.
    destruct (add_jitter_bounds after pct (now (clockReads l) + after)
                (with_clockReads (S (clockReads l)) l)
                Hnn Hpct Hmax Hj Hr Hlo Hhi) as [Hadd Hrem].
    rewrite Hadd. cbn [bind]. cbn [randCalls with_clockReads] in *.
    eexists _, _. split; [reflexivity|]. split; [reflexivity|].
    split; [lia|]. split; [lia|].
    unfold schedHandler, setWakeupTs. cbn.
    destruct (_ <? _); cbn; repeat split.
Qed.

(** X12. schedCall with a delay that is not negative and no jitter: the
    call is queued at exactly the current time plus the delay; the clock is
    read once, rand() is not called and the chain's cursor is not touched. *)
Theorem schedCall_plain_is_exact
    (func : list Cmd) (after aJitterPct : Z) (l : Loop) :
  0 <= after ->
  effective_jitter aJitterPct l = 0 ->
  TS_MIN <= now (clockReads l) + after <= TS_MAX ->
  exists l',
    schedCall now rand func after aJitterPct l = Ret l' /\
    mSchedQueue l' =
      sq_emplace (mkEntry (nextId l) (now (clockReads l) + after) (UserCall func))
                 (mSchedQueue l) /\
    clockReads l' = S (clockReads l) /\
    randCalls l' = randCalls l /\
    mLastOrderTs l' = mLastOrderTs l /\
    mDones l' = mDones l /\ mComplete l' = mComplete l.
Proof.
  intros Hnn Hj Hts. unfold schedCall.
  unfold effective_jitter in Hj. rewrite Hj.
  destruct (Z.ltb_spec after 0) as [Hneg|_]; [lia|].
  cbn [getTimeMs]. rewrite (chk_ts_in _ Hts). cbn.
  eexists. split; [reflexivity|].
  destruct (_ <? mNextEventTs l); cbn; repeat split.
Qed.

End Jitter.

(** ** Anchoring the deadlines *)

Lemma dm_find_nodup_In (m : DoneMap) (y : DoneItem) :
  NoDup (map tag m) -> In y m -> dm_find (tag y) m = Some y.
Proof.
  induction m as [|x m IH]; intros Hnd Hin; [destruct Hin|].
  cbn in Hnd. inversion Hnd as [|? ? Hx Hm]; subst. cbn [dm_find].
  destruct Hin as [->|Hin]; [now rewrite String.eqb_refl|].
  destruct (String.eqb_spec (tag x) (tag y)) as [E|_]; [|now apply IH].
  exfalso. apply Hx. rewrite E. now apply in_map.
Qed.

Lemma sq_emplace_length (e : SchedEntry) (q : SchedQueue) :
  List.length (sq_emplace e q) = S (List.length q).
Proof.
  induction q as [|y q IH]; [reflexivity|].
  cbn [sq_emplace]. destruct (_ <? _); cbn; [reflexivity | now rewrite IH].
Qed.

Lemma schedHandler_clock (h : SchedItem) (ts : Z) (l : Loop) :
  clockReads (snd (schedHandler h ts l)) = clockReads l.
Proof. unfold schedHandler, setWakeupTs. cbn. now destruct (ts <? mNextEventTs l). Qed.

(** The loop of addAllDonesToLoop over items that are the loop's own. *)
Lemma addDonesToLoop_anchors (tnow : Z) (items : list DoneItem) :
  forall l,
  NoDup (map tag items) ->
  (forall item, In item items -> dm_find (tag item) (mDones l) = Some item) ->
  (forall item, In item items -> TS_MIN <= deadline item + tnow <= TS_MAX) ->
  exists l',
    addDonesToLoop tnow items l = Ret l' /\
    (forall item, In item items ->
       exists e,
         dm_find (tag item) (mDones l') =
           Some (set_schedItem (Some (se_id e))
                   (set_deadline (deadline item + tnow) item)) /\
         In e (mSchedQueue l') /\ se_ts e = deadline item + tnow /\
         se_call e = DoneTimeout (tag item)) /\
    (forall u, ~ In u (map tag items) -> dm_find u (mDones l') = dm_find u (mDones l)) /\
    (forall e, In e (mSchedQueue l) -> In e (mSchedQueue l')) /\
    clockReads l' = clockReads l /\
    List.length (mSchedQueue l') = (List.length (mSchedQueue l) + List.length items)%nat.
Proof.
  induction items as [|item rest IH]; intros l Hnd Hown Hrange; cbn [addDonesToLoop].
  - exists l. split; [reflexivity|]. split; [intros item []|].
    repeat split; auto; cbn; lia.
  - cbn in Hnd. inversion Hnd as [|? ? Hni Hnd']; subst.
    rewrite (chk_ts_in _ (Hrange item (or_introl eq_refl))).
    set (d := deadline item + tnow).
    set (la := with_mDones (dm_update (tag item) (set_deadline d) (mDones l)) l).
    assert (Hfa : dm_find (tag item) (mDones la) = Some (set_deadline d item)).
    { subst la. cbn. rewrite dm_find_set_deadline, String.eqb_refl.
      now rewrite (Hown item (or_introl eq_refl)). }
    unfold addDoneToLoop. rewrite Hfa.
    destruct (schedHandler_spec (DoneTimeout (tag (set_deadline d item)))
                (deadline (set_deadline d item)) la)
      as (Hh & Hq & Hn & Hd & _).
    destruct (schedHandler (DoneTimeout (tag (set_deadline d item)))
                (deadline (set_deadline d item)) la) as [h l1] eqn:Hsched.
    cbn [fst snd] in Hh, Hq, Hn, Hd. subst h.
    set (l2 := with_mDones (dm_update (tag item) (set_schedItem (Some (nextId la)))
                              (mDones l1)) l1).
    assert (Hf2 : forall u, dm_find u (mDones l2) =
              if (u =? tag item)%string
              then Some (set_schedItem (Some (nextId l)) (set_deadline d item))
              else dm_find u (mDones l)).
    { intros u. subst l2 la. cbn. rewrite Hd. cbn.
      rewrite dm_find_set_schedItem, dm_find_set_deadline.
      destruct (String.eqb_spec u (tag item)) as [->|_]; [|reflexivity].
      now rewrite (Hown item (or_introl eq_refl)). }
    assert (Hq2 : mSchedQueue l2 =
                  sq_emplace (mkEntry (nextId l) d (DoneTimeout (tag item)))
                             (mSchedQueue l))
      by (subst l2 la; cbn; rewrite Hq; reflexivity).
    assert (Hc2 : clockReads l2 = clockReads l).
    { pose proof (schedHandler_clock (DoneTimeout (tag (set_deadline d item)))
                    (deadline (set_deadline d item)) la) as Hk.
      rewrite Hsched in Hk. subst l2 la. cbn in *. exact Hk. }
    destruct (IH l2 Hnd') as (l' & Hret & Hitems & Hother & Hkeep & Hclock & Hlen).
    { intros x Hx. rewrite Hf2.
      destruct (String.eqb_spec (tag x) (tag item)) as [E|_].
      - exfalso. apply Hni. rewrite <- E. now apply in_map.
      - apply Hown. now right. }
    { intros x Hx. apply Hrange. now right. }
    exists l'. split; [exact Hret|]. split; [|split; [|split; [|split]]].
    + intros x [<-|Hx]; [|now apply Hitems].
      exists (mkEntry (nextId l) d (DoneTimeout (tag item))).
      rewrite (Hother _ Hni), Hf2, String.eqb_refl. cbn.
      split; [reflexivity|]. split; [|now split].
      apply Hkeep. rewrite Hq2. apply sq_emplace_In. now left.
    + intros u Hu. rewrite Hother; [|intros Hin; apply Hu; now right].
      rewrite Hf2. destruct (String.eqb_spec u (tag item)) as [->|_]; [|reflexivity].
      exfalso. apply Hu. now left.
    + intros e He. apply Hkeep. rewrite Hq2. apply sq_emplace_In. now right.
    + now rewrite Hclock.
    + rewrite Hlen, Hq2, sq_emplace_length. cbn. lia.
Qed.

(** X13. addAllDonesToLoop on a loop whose items have distinct tags and
    whose deadlines, added to the current time, fit a timestamp: the clock
    is read once; every item gets that reading added to its deadline and a
    timeout entry of its own in the queue, at the new deadline and
    remembered in the item; the entries that were in the queue stay, and
    the queue grows by one entry per item. *)
Theorem addAllDonesToLoop_anchors (now : nat -> Z) (l : Loop) :
  NoDup (map tag (mDones l)) ->
  (forall d, In d (mDones l) -> TS_MIN <= deadline d + now (clockReads l) <= TS_MAX) ->
  exists l',
    addAllDonesToLoop now l = Ret l' /\
    clockReads l' = S (clockReads l) /\
    (forall t d, dm_find t (mDones l) = Some d ->
       exists e,
         dm_find t (mDones l') =
           Some (set_schedItem (Some (se_id e))
                   (set_deadline (deadline d + now (clockReads l)) d)) /\
         In e (mSchedQueue l') /\
         se_ts e = deadline d + now (clockReads l) /\
         se_call e = DoneTimeout t) /\
    (forall e, In e (mSchedQueue l) -> In e (mSchedQueue l')) /\
    List.length (mSchedQueue l') =
      (List.length (mSchedQueue l) + List.length (mDones l))%nat.
Proof.
  intros Hnd Hrange. unfold addAllDonesToLoop. cbn [getTimeMs].
  destruct (addDonesToLoop_anchors (now (clockReads l)) (mDones l)
              (with_clockReads (S (clockReads l)) l) Hnd)
    as (l' & Hret & Hitems & _ & Hkeep & Hclock & Hlen).
  { intros item Hin. cbn. now apply dm_find_nodup_In. }
  { exact Hrange. }
  exists l'. split; [exact Hret|]. split; [exact Hclock|].
  split; [|split; [exact Hkeep | exact Hlen]].
  intros t d Hf. pose proof (dm_find_tag _ _ _ Hf) as Ht. subst t.
  apply Hitems. now apply (dm_find_In (tag d)).
Qed.

(** ** The constructors of DoneItem *)

(** X14. The constructor of a done() item with two options throws exactly
    when one of the two names is not recognized, and names the first such
    name and the tag. Otherwise the item is pending, without a timeout
    entry, with the tag given; of two options that set the same field the
    second wins, and a field that no option sets keeps its default. *)
Theorem DoneItem2_options (aTag name1 : string) (val1 : Z) (name2 : string) (val2 : Z) :
  (~ recognized_option name1 ->
     DoneItem2 aTag name1 val1 name2 val2 = Raise (unknown_property name1 aTag)) /\
  (recognized_option name1 -> ~ recognized_option name2 ->
     DoneItem2 aTag name1 val1 name2 val2 = Raise (unknown_property name2 aTag)) /\
  (recognized_option name1 -> recognized_option name2 ->
     DoneItem2 aTag name1 val1 name2 val2 =
       Val (mkDone aTag 0
              (if names_deadline name2 then val2
               else if names_deadline name1 then val1 else -1)
              (if names_order name2 then val2
               else if names_order name1 then val1 else 0)
              None)) /\
  ((exists what, DoneItem2 aTag name1 val1 name2 val2 = Raise what) <->
     ~ (recognized_option name1 /\ recognized_option name2)).
Proof.
  assert (Hrec : forall n, recognized_option n <->
                   names_deadline n = true \/ names_order n = true).
  { intros n. unfold recognized_option, names_deadline, names_order.
    rewrite orb_true_iff, !String.eqb_eq. tauto. }
  assert (Hexcl : forall n, names_deadline n = true -> names_order n = false).
  { intros n. unfold names_deadline, names_order.
    rewrite orb_true_iff, !String.eqb_eq. intros [->| ->]; reflexivity. }
  unfold DoneItem2, setVal.
  fold (names_deadline name1) (names_order name1).
  rewrite !Hrec.
  destruct (names_deadline name1) eqn:D1, (names_order name1) eqn:O1;
    try (rewrite (Hexcl _ D1) in O1; discriminate O1);
    cbn [tag set_deadline set_order DoneItem0 deadline order complete schedItem];
    fold (names_deadline name2) (names_order name2);
    destruct (names_deadline name2) eqn:D2, (names_order name2) eqn:O2;
    try (rewrite (Hexcl _ D2) in O2; discriminate O2);
    cbn [tag set_deadline set_order DoneItem0 deadline order complete schedItem].
  all: repeat split; intros;
       repeat match goal with
              | H : exists _, _ |- _ => destruct H
              | H : _ /\ _ |- _ => destruct H
              | H : _ \/ _ |- _ => destruct H
              end;
       try discriminate; try reflexivity; eauto.
  all: try (exfalso; match goal with H : ~ _ |- _ => apply H end; auto; fail).
  all: try (intros [X|X]; discriminate X).
  all: try (intros [[X|X] _]; discriminate X).
  all: try (intros [_ [X|X]]; discriminate X).
Qed.

(** ** A usage error inside a callback *)

Section Usage.

Variable now : nat -> Z.
Variable rand : nat -> Z.


End Usage.

(** * The further statements at work on the scenarios *)

Lemma sq_emplace_sorted_stable_witness :
  ts_sorted two_calls /\
  sq_emplace (mkEntry 2 10 (UserCall [CAbort])) two_calls =
    [mkEntry 0 10 (UserCall []); mkEntry 2 10 (UserCall [CAbort]);
     mkEntry 1 20 (UserCall [])] /\
  ts_sorted (sq_emplace (mkEntry 2 10 (UserCall [CAbort])) two_calls).
Proof.
  assert (Hs : ts_sorted two_calls)
    by (repeat constructor; cbn; lia).
  split; [exact Hs|]. split; [reflexivity|].
  exact (proj1 (sq_emplace_sorted_stable (mkEntry 2 10 (UserCall [CAbort])) two_calls Hs)).
Defined.

Lemma schedHandler_then_erase_witness :
  sq_erase (fst (schedHandler (UserCall []) 5 in_order_loop))
           (mSchedQueue (snd (schedHandler (UserCall []) 5 in_order_loop)))
    = Some (mSchedQueue in_order_loop).
Proof.
  apply (schedHandler_then_erase (UserCall []) 5 in_order_loop).
  intros x Hx. vm_compute in Hx. destruct Hx as [<-|[]]. vm_compute. reflexivity.
Defined.



Lemma addDoneToMap_registers_once_witness :
  exists l',
    addDoneToMap (DoneItem0 "a") default_loop = Ret l' /\
    dm_find "a" (mDones l') = Some (mkDone "a" 0 2000 0 None) /\
    exists what l'', addDoneToMap (DoneItem0 "a") l' = Throw what l''.
Proof.
  assert (Hs : tags_sorted (mDones default_loop)) by (repeat constructor).
  destruct (proj1 (addDoneToMap_registers_once (DoneItem0 "a") default_loop Hs) eq_refl)
    as (l' & Hret & Hfind & _ & Hs' & _).
  exists l'. split; [exact Hret|]. split; [exact Hfind|].
  destruct (proj2 (addDoneToMap_registers_once (DoneItem0 "a") l' Hs'))
    as (what & l'' & Hthrow & _).
  - rewrite Hfind. discriminate.
  - now exists what, l''.
Defined.

Lemma EventLoop_with_distinct_tags_witness :
  (exists l, EventLoop_with items_ab 2000 = Ret l) /\
  ~ (exists l, EventLoop_with (DoneItem0 "a" :: items_ab) 2000 = Ret l).
Proof.
  split.
  - apply (proj1 (EventLoop_with_distinct_tags items_ab 2000)).
    repeat constructor; cbn; intuition discriminate.
  - intros H. apply (proj1 (EventLoop_with_distinct_tags _ 2000)) in H.
    cbn in H. inversion H as [|? ? Hni _]. apply Hni. now left.
Defined.

Lemma constructed_loop_is_ready_witness :
  readyb (the_loop (EventLoop_with items_ab 2000)) = true.
Proof.
  apply (proj1 (constructed_loop_is_ready now0 rand0) items_ab 2000).
  - vm_compute. reflexivity.
  - intros item [<-|[<-|[]]]; reflexivity.
Defined.

Lemma done_in_turn_resolves_witness :
  exists l',
    done "a" (armed_loop in_order_loop) = Ret l' /\
    dm_find "a" (mDones l') = Some (mkDone "a" ASYNC_COMPLETE_SUCCESS 1002040 1 (Some 1%nat)) /\
    List.length (mSchedQueue l') = 2%nat.
Proof.
  pose proof (fun it h q =>
                done_in_turn_resolves "a" it h q (armed_loop in_order_loop)) as H.
  edestruct H as (l' & Hd & Hf & _ & Hq & _).
  - vm_compute. reflexivity.
  - reflexivity.
  - reflexivity.
  - vm_compute. reflexivity.
  - vm_compute. repeat constructor; cbn; intuition discriminate.
  - right. vm_compute. split; [reflexivity | split; congruence].
  - exists l'. split; [exact Hd|]. split; [exact Hf|]. now rewrite Hq.
Defined.

Lemma done_before_run_is_undefined_witness :
  done "a" (the_loop (EventLoop_with items_ab 2000)) = Fault InvalidIterator.
Proof.
  apply (done_before_run_is_undefined items_ab 2000
           (the_loop (EventLoop_with items_ab 2000)) (DoneItem0 "a")).
  - vm_compute. reflexivity.
  - now left.
  - reflexivity.
  - reflexivity.
Defined.

Lemma error_throws_unless_failed_witness :
  exists what l',
    error_tag "_default" "boom" default_loop = Throw what l' /\
    mComplete l' = ASYNC_COMPLETE_ERROR /\ errorMsg l' = what.
Proof.
  destruct (proj2 (proj2 (proj2
              (error_throws_unless_failed "boom" default_loop)))
              ltac:(discriminate) "_default" eq_refl)
    as (what & l' & Hthrow & Hc & Hm & _).
  now exists what, l'.
Defined.

Lemma schedCall_jitter_within_bounds_witness :
  exists l' ts,
    schedCall now0 rand0 [CDoneDefault] 100 50 default_loop = Ret l' /\
    1000050 <= ts /\ ts < 1000150 /\
    mSchedQueue l' = [mkEntry 0 ts (UserCall [CDoneDefault])].
Proof.
  destruct (schedCall_jitter_within_bounds now0 rand0 [CDoneDefault] 100 50 default_loop)
    as (l' & ts & Hret & _ & Hlo & Hhi & Hq & _);
    try (vm_compute; congruence).
  exists l', ts. repeat split; assumption.
Defined.

Lemma schedCall_plain_is_exact_witness :
  exists l',
    schedCall now0 rand0 [CDoneDefault] 100 0 default_loop = Ret l' /\
    mSchedQueue l' = [mkEntry 0 1000100 (UserCall [CDoneDefault])].
Proof.
  destruct (schedCall_plain_is_exact now0 rand0 [CDoneDefault] 100 0 default_loop)
    as (l' & Hret & Hq & _).
  - lia.
  - reflexivity.
  - vm_compute. split; congruence.
  - exists l'. split; assumption.
Defined.

Lemma addAllDonesToLoop_anchors_witness :
  exists l',
    addAllDonesToLoop now0 in_order_loop = Ret l' /\
    List.length (mSchedQueue l') = 3%nat.
Proof.
  destruct (addAllDonesToLoop_anchors now0 in_order_loop) as (l' & Hret & _ & _ & _ & Hlen).
  - vm_compute. repeat constructor; cbn; intuition discriminate.
  - intros d Hd. vm_compute in Hd.
    destruct Hd as [<-|[<-|[]]]; vm_compute; split; congruence.
  - exists l'. split; assumption.
Defined.

Lemma DoneItem2_options_witness :
  DoneItem2 "event 2" "timeout" 4000 "order" 2 =
    Val (mkDone "event 2" 0 4000 2 None).
Proof.
  apply (proj1 (proj2 (proj2 (DoneItem2_options "event 2" "timeout" 4000 "order" 2)))).
  - left. reflexivity.
  - right. right. reflexivity.
Defined.

